(** * un-optional-chaining: restoring [?.] and [??] from their desugared forms

    A shallow embedding of
    [packages/unminify/src/transformations/un-optional-chaining.ts] and of the
    nullish-coalescing chain analyzer that accompanies it.

    Conventions of the embedding.
    - AST nodes are values of the inductive type [expr]; operators are kept as
      the strings the source compares them with.
    - [j.X.check] follows the type hierarchy of the AST library: an
      [OptionalMemberExpression] is a [MemberExpression] and an
      [OptionalCallExpression] is a [CallExpression].
    - An in-place update [node.object = e] followed by [return node] is the
      node rebuilt with the new field; what a call leaves in the nodes of the
      document is computed beside its result.  Reference identity of two nodes
      is read as structural equality.
    - The module-level flag [transformed] is only ever set to [true] between
      two resets, so the rewriter returns the rewritten node together with a
      boolean telling whether it set the flag.
    - A node builder that receives no value for a required field throws; a
      throwing call is [None]. *)

From stdpp Require Import base strings list option gmap.
From Stdlib Require Import ZArith Ascii.

Local Open Scope string_scope.
Set Warnings "-register-all".

(** ** Expressions *)

Inductive expr : Type :=
  | Identifier (name : string)
  | NullLiteral
  | NumericLiteral (value : Z)
  | StringLiteral (value : string)
  | BooleanLiteral (value : bool)
  | Literal (value : string)
  | UnaryExpression (operator : string) (argument : expr) (prefix : bool)
  | BinaryExpression (operator : string) (left right : expr)
  | LogicalExpression (operator : string) (left right : expr)
  | ConditionalExpression (test consequent alternate : expr)
  | AssignmentExpression (operator : string) (left right : expr)
  | MemberExpression (object property : expr) (computed : bool)
  | OptionalMemberExpression (object property : expr) (computed : bool)
  | CallExpression (callee : expr) (arguments : list expr)
  | OptionalCallExpression (callee : expr) (arguments : list expr)
  | SequenceExpression (expressions : list expr)
  | ArrayExpression (elements : list (option expr))
  | SpreadElement (argument : expr)
  | ParenthesizedExpression (expression : expr)
  | OtherNode (type : string) (children : list expr).

(** [a[i]] of a JavaScript array: [undefined] out of range. *)
Definition nth_arg (i : nat) (l : list expr) : option expr := l !! i.

Definition list_eqb {A} (f : A -> A -> bool) : list A -> list A -> bool :=
  fix go l1 l2 :=
    match l1, l2 with
    | [], [] => true
    | x :: l1', y :: l2' => f x y && go l1' l2'
    | _, _ => false
    end.

Definition option_eqb {A} (f : A -> A -> bool) (o1 o2 : option A) : bool :=
  match o1, o2 with
  | None, None => true
  | Some x, Some y => f x y
  | _, _ => false
  end.

(** Modelled from the spec: [areNodesEqual] of [@wakaru/ast-utils/matchers],
    the structural-equality comparator over expression subtrees ("equality
    comparisons are structural, not by identity"). *)
Fixpoint areNodesEqual (a b : expr) {struct a} : bool :=
  match a, b with
  | Identifier x, Identifier y => String.eqb x y
  | NullLiteral, NullLiteral => true
  | NumericLiteral x, NumericLiteral y => Z.eqb x y
  | StringLiteral x, StringLiteral y => String.eqb x y
  | BooleanLiteral x, BooleanLiteral y => Bool.eqb x y
  | Literal x, Literal y => String.eqb x y
  | UnaryExpression o1 a1 p1, UnaryExpression o2 a2 p2 =>
      String.eqb o1 o2 && areNodesEqual a1 a2 && Bool.eqb p1 p2
  | BinaryExpression o1 l1 r1, BinaryExpression o2 l2 r2 =>
      String.eqb o1 o2 && areNodesEqual l1 l2 && areNodesEqual r1 r2
  | LogicalExpression o1 l1 r1, LogicalExpression o2 l2 r2 =>
      String.eqb o1 o2 && areNodesEqual l1 l2 && areNodesEqual r1 r2
  | ConditionalExpression t1 c1 a1, ConditionalExpression t2 c2 a2 =>
      areNodesEqual t1 t2 && areNodesEqual c1 c2 && areNodesEqual a1 a2
  | AssignmentExpression o1 l1 r1, AssignmentExpression o2 l2 r2 =>
      String.eqb o1 o2 && areNodesEqual l1 l2 && areNodesEqual r1 r2
  | MemberExpression o1 p1 c1, MemberExpression o2 p2 c2 =>
      areNodesEqual o1 o2 && areNodesEqual p1 p2 && Bool.eqb c1 c2
  | OptionalMemberExpression o1 p1 c1, OptionalMemberExpression o2 p2 c2 =>
      areNodesEqual o1 o2 && areNodesEqual p1 p2 && Bool.eqb c1 c2
  | CallExpression c1 l1, CallExpression c2 l2 =>
      areNodesEqual c1 c2 && list_eqb areNodesEqual l1 l2
  | OptionalCallExpression c1 l1, OptionalCallExpression c2 l2 =>
      areNodesEqual c1 c2 && list_eqb areNodesEqual l1 l2
  | SequenceExpression l1, SequenceExpression l2 => list_eqb areNodesEqual l1 l2
  | ArrayExpression l1, ArrayExpression l2 =>
      list_eqb (option_eqb areNodesEqual) l1 l2
  | SpreadElement a1, SpreadElement a2 => areNodesEqual a1 a2
  | ParenthesizedExpression a1, ParenthesizedExpression a2 => areNodesEqual a1 a2
  | OtherNode t1 l1, OtherNode t2 l2 =>
      String.eqb t1 t2 && list_eqb areNodesEqual l1 l2
  | _, _ => false
  end.

(** [areNodesEqual(j, node.arguments[0], tempVariable)]: an absent first
    argument equals no node. *)
Definition areNodesEqual_opt (a : option expr) (b : expr) : bool :=
  match a with Some a => areNodesEqual a b | None => false end.

(** ** Type checks ([j.X.check]) *)

Definition isIdentifier (e : expr) : bool :=
  match e with Identifier _ => true | _ => false end.
Definition isMemberExpression (e : expr) : bool :=
  match e with
  | MemberExpression _ _ _ | OptionalMemberExpression _ _ _ => true
  | _ => false
  end.
Definition isOptionalCallExpression (e : expr) : bool :=
  match e with OptionalCallExpression _ _ => true | _ => false end.
Definition isAssignmentExpression (e : expr) : bool :=
  match e with AssignmentExpression _ _ _ => true | _ => false end.
Definition isSpreadElement (e : expr) : bool :=
  match e with SpreadElement _ => true | _ => false end.
Definition isNullLiteral (e : expr) : bool :=
  match e with NullLiteral => true | _ => false end.

(** Modelled from the spec: [memberExpressionKindTypes] and
    [patternKindTypes] of [@wakaru/ast-utils/kinds]; together they accept the
    targets that are "an assignable shape". *)
Definition isAssignableKind (e : expr) : bool :=
  isMemberExpression e || isIdentifier e.

(** ** Matchers *)

(** Modelled from the spec: [isNull], [isUndefined], [isTrue] and the binary
    matchers of [@wakaru/ast-utils/matchers]: a null comparison is [==] or
    [===] against the null literal, an undefined comparison is [==] or [===]
    against [undefined] or [void 0], and the not-null form is [!=] or [!==]
    against the null literal. *)
Definition isNull (e : expr) : bool := isNullLiteral e.

Definition isUndefined (e : expr) : bool :=
  match e with
  | Identifier n => String.eqb n "undefined"
  | UnaryExpression op (NumericLiteral 0) _ => String.eqb op "void"
  | _ => false
  end.

Definition isTrue (e : expr) : bool :=
  match e with
  | BooleanLiteral true => true
  | UnaryExpression op (NumericLiteral 0) _ => String.eqb op "!"
  | _ => false
  end.

Definition isEqOperator (op : string) : bool :=
  String.eqb op "==" || String.eqb op "===".
Definition isNeqOperator (op : string) : bool :=
  String.eqb op "!=" || String.eqb op "!==".

Definition isNullBinary (e : expr) : bool :=
  match e with
  | BinaryExpression op l r => isEqOperator op && (isNull l || isNull r)
  | _ => false
  end.

Definition isUndefinedBinary (e : expr) : bool :=
  match e with
  | BinaryExpression op l r => isEqOperator op && (isUndefined l || isUndefined r)
  | _ => false
  end.

Definition isNotNullBinary (e : expr) : bool :=
  match e with
  | BinaryExpression op l r => isNeqOperator op && (isNull l || isNull r)
  | _ => false
  end.

(** ** Expression Rewriter *)

Definition identifierName (e : expr) : option string :=
  match e with Identifier n => Some n | _ => None end.

(** The node with its [object] field updated in place. *)
Definition withObject (node object' : expr) : expr :=
  match node with
  | MemberExpression _ p c => MemberExpression object' p c
  | OptionalMemberExpression _ p c => OptionalMemberExpression object' p c
  | _ => node
  end.

(** [args.map(f)] for a rewriter [f] that may throw and may set the flag. *)
Definition mapRewrite {A} (f : A -> option (expr * bool))
  : list A -> option (list expr * bool) :=
  fix go l :=
    match l with
    | [] => Some ([], false)
    | a :: l' =>
        match f a with
        | None => None
        | Some (a', b) =>
            match go l' with
            | None => None
            | Some (l'', b') => Some (a' :: l'', b || b')
            end
        end
    end.

(** [arg.elements.map(element => element ?? j.identifier('undefined'))] for an
    array literal, [[j.spreadElement(arg)]] otherwise. *)
Definition fillHoles (elements : list (option expr)) : list expr :=
  map (fun element => default (Identifier "undefined") element) elements.

Definition expandApplyArgument (arg : expr) : list expr :=
  match arg with
  | ArrayExpression elements => fillHoles elements
  | _ => [SpreadElement arg]
  end.

(** The test of [j.match(node.callee, { type: 'SequenceExpression', ... })]:
    the callee is [(0, tempVariable)]. *)
Definition isIndirectCallee (callee tempVariable : expr) : bool :=
  match callee with
  | SequenceExpression [NumericLiteral 0; e] => areNodesEqual e tempVariable
  | _ => false
  end.

Section Rewriter.

(** [smartParenthesized] of [@wakaru/ast-utils/parenthesized] is not part of
    the sources at hand: it is a parameter of the development. *)
Variable smartParenthesized : expr -> expr.

(** What the rewriter does at an identifier node. *)
Definition rewriteIdentifier (tempVariable : expr)
    (targetExpression : option expr) (name : string) : expr :=
  match targetExpression with
  | Some t =>
      if areNodesEqual (Identifier name) tempVariable
      then smartParenthesized t
      else Identifier name
  | None => Identifier name
  end.

Definition applyOptionalChaining (tempVariable : expr)
    (targetExpression : option expr) : expr -> option (expr * bool) :=
  fix go (node : expr) {struct node} : option (expr * bool) :=
    let rewriteArg := fun arg : expr =>
      if isSpreadElement arg then Some (arg, false) else go arg in
    (* the arguments of the optional call that replaces an [apply] call:
       the elements of an array literal, holes filled with [undefined], or
       the second argument spread; each one then goes through [rewriteArg] *)
    (* [args.slice(1).map(rewriteArg)] *)
    let rewriteRest := fun args : list expr =>
      match args with
      | [] => Some ([], false)
      | _ :: rest => mapRewrite rewriteArg rest
      end in
    let rewriteApplyArgument := fun arg : expr =>
      match arg with
      | ArrayExpression elements =>
          mapRewrite
            (fun element : option expr =>
               match element with
               | Some e => rewriteArg e
               | None => Some (rewriteIdentifier tempVariable targetExpression "undefined", false)
               end) elements
      | _ => Some ([SpreadElement arg], false)
      end in
    match node with
    | MemberExpression object property computed
    | OptionalMemberExpression object property computed =>
        if areNodesEqual object tempVariable then
          let object' :=
            match targetExpression with
            | Some t => smartParenthesized t
            | None => object
            end in
          Some (OptionalMemberExpression object' property computed, true)
        else
          match go object with
          | None => None
          | Some (object', b) => Some (withObject node object', b)
          end
    | CallExpression callee args
    | OptionalCallExpression callee args =>
        (* the generic tail: rebuild the call around the rewritten parts *)
        let generic :=
          match go callee with
          | None => None
          | Some (callee', b1) =>
              match mapRewrite rewriteArg args with
              | None => None
              | Some (args', b2) =>
                  Some ((if isOptionalCallExpression node
                         then OptionalCallExpression callee' args'
                         else CallExpression callee' args'), b1 || b2)
              end
          end in
        (* [areNodesEqual(j, node.callee, tempVariable)] *)
        let direct :=
          if areNodesEqual callee tempVariable then
            Some (OptionalCallExpression (default callee targetExpression) args, true)
          else generic in
        (* the [(0, tmp)(...)] idiom *)
        let indirect :=
          if isIndirectCallee callee tempVariable then
            let target :=
              match targetExpression, callee with
              | Some t, _ => Some t
              | None, SequenceExpression [_; e] => Some e
              | None, _ => None
              end in
            match target with
            | None => None
            | Some target =>
                match mapRewrite rewriteArg args with
                | None => None
                | Some (args', _) =>
                    Some (OptionalCallExpression
                            (smartParenthesized
                               (SequenceExpression [NumericLiteral 0; target]))
                            args', true)
                end
            end
          else direct in
        match callee with
        | MemberExpression cobject cproperty _
        | OptionalMemberExpression cobject cproperty _ =>
            (* [tmp.call(...)] and [tmp.apply(...)] *)
            let onTemp :=
              if areNodesEqual cobject tempVariable then
                match identifierName cproperty with
                | Some name =>
                    if String.eqb name "call" then
                      match rewriteRest args, targetExpression with
                      | Some (args', _), Some t =>
                          Some (OptionalCallExpression t args', true)
                      | _, _ => None
                      end
                    else if String.eqb name "apply" then
                      match args with
                      | _ :: arg :: _ =>
                          if isSpreadElement arg then Some (node, false)
                          else
                            match rewriteApplyArgument arg,
                                  targetExpression with
                            | Some (args', _), Some t =>
                                Some (OptionalCallExpression t args', true)
                            | _, _ => None
                            end
                      | _ => None
                      end
                    else indirect
                | None => indirect
                end
              else indirect in
            match cobject with
            | MemberExpression oobject oproperty ocomputed
            | OptionalMemberExpression oobject oproperty ocomputed =>
                match identifierName cproperty with
                | Some name =>
                    if String.eqb name "call"
                       && areNodesEqual_opt (nth_arg 0 args) tempVariable then
                      match go cobject, rewriteRest args with
                      | Some (callee', _), Some (args', _) =>
                          Some (OptionalCallExpression callee' args', true)
                      | _, _ => None
                      end
                    else if String.eqb name "apply" then
                      match args with
                      | _ :: arg :: _ =>
                          if isSpreadElement arg then Some (node, false)
                          else
                            match go cobject,
                                  rewriteApplyArgument arg with
                            | Some (callee', _), Some (args', _) =>
                                Some (OptionalCallExpression callee' args', true)
                            | _, _ => None
                            end
                      | _ => None
                      end
                    else if String.eqb name "bind"
                            && areNodesEqual_opt (nth_arg 0 args) tempVariable then
                      let isOptional := negb (isAssignmentExpression oobject) in
                      match go oobject, go oproperty with
                      | Some (object', b1), Some (property', b2) =>
                          Some ((if isOptional
                                 then OptionalMemberExpression object' property' ocomputed
                                 else MemberExpression object' property' ocomputed),
                                isOptional || b1 || b2)
                      | _, _ => None
                      end
                    else onTemp
                | None => onTemp
                end
            | _ => onTemp
            end
        | _ => indirect
        end
    | AssignmentExpression operator lhs rhs =>
        match targetExpression with
        | Some t =>
            if areNodesEqual lhs tempVariable then
              if areNodesEqual rhs t then Some (t, false)
              else if isAssignableKind t
                   then Some (AssignmentExpression operator t rhs, false)
                   else Some (node, false)
            else Some (node, false)
        | None => Some (node, false)
        end
    | Identifier name =>
        Some (rewriteIdentifier tempVariable targetExpression name, false)
    | UnaryExpression operator argument prefix =>
        match go argument with
        | None => None
        | Some (argument', b) =>
            Some (UnaryExpression operator argument' prefix, b)
        end
    | _ => Some (node, false)
    end.

End Rewriter.

(** ** Decision trees *)

Inductive DecisionTree : Type :=
  | Node (condition : expr) (trueBranch falseBranch : option DecisionTree).

Definition condition (t : DecisionTree) : expr :=
  match t with Node c _ _ => c end.
Definition trueBranch (t : DecisionTree) : option DecisionTree :=
  match t with Node _ tb _ => tb end.
Definition falseBranch (t : DecisionTree) : option DecisionTree :=
  match t with Node _ _ fb => fb end.

(** Modelled from the spec: [makeDecisionTree] of [utils/decisionTree], called
    with [requireReturnValue = false].  [a ? b : c] gives
    [{cond: a, true: T(b), false: T(c)}]; [a && b] gives [{cond: a, true: T(b)}]
    and [a || b] gives [{cond: a, false: T(b)}], the branch the operator
    short-circuits on being absent; anything else is a leaf. *)
Fixpoint makeDecisionTree (node : expr) : DecisionTree :=
  match node with
  | ConditionalExpression t c a =>
      Node t (Some (makeDecisionTree c)) (Some (makeDecisionTree a))
  | LogicalExpression op l r =>
      if String.eqb op "&&" then Node l (Some (makeDecisionTree r)) None
      else if String.eqb op "||" then Node l None (Some (makeDecisionTree r))
      else Node node None None
  | _ => Node node None None
  end.

(** Modelled from the spec: [makeDecisionTreeWithConditionSplitting] of
    [utils/decisionTree]: "compound conditions containing nested logical
    operators are recursively split so every node carries one atomic
    comparison".  [splitCondition c tb fb] is the tree that tests [c] and
    continues with the (already split) branches [tb] and [fb]. *)
Fixpoint splitCondition (c : expr) (tb fb : option DecisionTree) : DecisionTree :=
  match c with
  | LogicalExpression op l r =>
      if String.eqb op "&&" then splitCondition l (Some (splitCondition r tb fb)) fb
      else if String.eqb op "||" then splitCondition l tb (Some (splitCondition r tb fb))
      else Node c tb fb
  | _ => Node c tb fb
  end.

Fixpoint makeDecisionTreeWithConditionSplitting (tree : DecisionTree) : DecisionTree :=
  match tree with
  | Node c tb fb =>
      splitCondition c
        (match tb with
         | Some t => Some (makeDecisionTreeWithConditionSplitting t)
         | None => None
         end)
        (match fb with
         | Some t => Some (makeDecisionTreeWithConditionSplitting t)
         | None => None
         end)
  end.

Definition negateOperator (op : string) : option string :=
  if String.eqb op "==" then Some "!="
  else if String.eqb op "!=" then Some "=="
  else if String.eqb op "===" then Some "!=="
  else if String.eqb op "!==" then Some "==="
  else None.

(** Modelled from the spec: [negateCondition] of [utils/condition], the
    negation the De Morgan dual is built from.  A logical not is dropped, an
    equality comparison flips its operator, [&&] and [||] are dualised, and
    any other expression is wrapped in [!]. *)
Fixpoint negateCondition (e : expr) : expr :=
  match e with
  | UnaryExpression op a p =>
      if String.eqb op "!" then a else UnaryExpression "!" e true
  | BinaryExpression op l r =>
      match negateOperator op with
      | Some op' => BinaryExpression op' l r
      | None => UnaryExpression "!" e true
      end
  | LogicalExpression op l r =>
      if String.eqb op "&&"
      then LogicalExpression "||" (negateCondition l) (negateCondition r)
      else if String.eqb op "||"
      then LogicalExpression "&&" (negateCondition l) (negateCondition r)
      else UnaryExpression "!" e true
  | _ => UnaryExpression "!" e true
  end.

(** Modelled from the spec: [negateDecisionTree] of [utils/decisionTree]:
    "negates every condition and swaps branches at every level". *)
Fixpoint negateDecisionTree (tree : DecisionTree) : DecisionTree :=
  match tree with
  | Node c tb fb =>
      Node (negateCondition c)
        (match fb with Some t => Some (negateDecisionTree t) | None => None end)
        (match tb with Some t => Some (negateDecisionTree t) | None => None end)
  end.

Fixpoint isFalsyBranchTree (tree : DecisionTree) : bool :=
  match tree with
  | Node c tb fb =>
      (isNull c || isUndefined c)
      && match tb with Some t => isFalsyBranchTree t | None => true end
      && match fb with Some t => isFalsyBranchTree t | None => true end
  end.

Definition isFalsyBranch (tree : option DecisionTree) : bool :=
  match tree with
  | None => true
  | Some t => isFalsyBranchTree t
  end.

Fixpoint getDeepestFalseBranch (tree : DecisionTree) : DecisionTree :=
  match tree with
  | Node _ _ None => tree
  | Node _ _ (Some fb) => getDeepestFalseBranch fb
  end.

Definition isDeleteExpression (e : expr) : bool :=
  match e with
  | UnaryExpression op _ _ => String.eqb op "delete"
  | _ => false
  end.

(** ** Assignments embedded in an expression *)

Definition isIdentifierAssignment (e : expr) : bool :=
  match e with
  | AssignmentExpression _ (Identifier _) _ => true
  | _ => false
  end.

(** The nodes [find(j.AssignmentExpression, { left: { type: 'Identifier' } })]
    meets below and at [e], in traversal (pre-) order. *)
Fixpoint assignmentsAt (e : expr) : list expr :=
  (if isIdentifierAssignment e then [e] else []) ++
  match e with
  | UnaryExpression _ a _ | SpreadElement a | ParenthesizedExpression a =>
      assignmentsAt a
  | BinaryExpression _ l r | LogicalExpression _ l r
  | AssignmentExpression _ l r
  | MemberExpression l r _ | OptionalMemberExpression l r _ =>
      assignmentsAt l ++ assignmentsAt r
  | ConditionalExpression t c a =>
      assignmentsAt t ++ assignmentsAt c ++ assignmentsAt a
  | CallExpression c args | OptionalCallExpression c args =>
      assignmentsAt c ++ concat (map assignmentsAt args)
  | SequenceExpression es | OtherNode _ es => concat (map assignmentsAt es)
  | ArrayExpression els =>
      concat (map (fun el => match el with
                             | Some x => assignmentsAt x
                             | None => []
                             end) els)
  | _ => []
  end.

(** [j(e).find(...)] does not report [e] itself. *)
Definition nestedAssignments (e : expr) : list expr :=
  drop (if isIdentifierAssignment e then 1 else 0) (assignmentsAt e).

(** ** Engine state

    The module-level flag [transformed] and the names handed to
    [removeDeclarationIfUnused] ([@wakaru/ast-utils/scope], the Scope
    Cleaner), in call order.  A computation may throw ([None]). *)

Record EngineState : Type := mkState {
  transformed : bool;
  cleaned : list string
}.

Definition M (A : Type) : Type := EngineState -> option (A * EngineState).

Definition ret {A} (a : A) : M A := fun s => Some (a, s).
Definition bind {A B} (m : M A) (k : A -> M B) : M B :=
  fun s => match m s with
           | None => None
           | Some (a, s') => k a s'
           end.

Notation "'do' x <- m ; k" := (bind m (fun x => k))
  (at level 10, x name, m at level 100, k at level 200).

Definition setTransformed (b : bool) : M unit :=
  fun s => Some (tt, mkState b (cleaned s)).

Definition removeDeclarationIfUnused (name : string) : M unit :=
  fun s => Some (tt, mkState (transformed s) (cleaned s ++ [name])).

(** Running the rewriter: it throws, or returns a node and possibly sets the
    flag. *)
Definition liftRewrite (r : option (expr * bool)) : M expr :=
  fun s => match r with
           | None => None
           | Some (e, b) => Some (e, mkState (transformed s || b) (cleaned s))
           end.

Inductive Flag : Type :=
  | Flag0   (* default state, looking for null *)
  | Flag1.  (* null detected, looking for undefined *)

Section Engine.

Variable smartParenthesized : expr -> expr.

(** [allAssignment.reduce((acc, curr) => applyOptionalChaining(j, acc,
    curr.left, curr.right), init)]. *)
Fixpoint foldAssignments (allAssignment : list expr) (acc : expr) : M expr :=
  match allAssignment with
  | [] => ret acc
  | AssignmentExpression _ tempVariable originalVariable :: rest =>
      do acc' <- liftRewrite
        (applyOptionalChaining smartParenthesized tempVariable
           (Some originalVariable) acc);
      foldAssignments rest acc'
  | _ :: rest => foldAssignments rest acc
  end.

(** [allAssignment.forEach(...)]: every assigned identifier goes to the
    Scope Cleaner. *)
Fixpoint cleanAssignments (allAssignment : list expr) : M unit :=
  match allAssignment with
  | [] => ret tt
  | AssignmentExpression _ (Identifier name) _ :: rest =>
      do _ <- removeDeclarationIfUnused name; cleanAssignments rest
  | _ :: rest => cleanAssignments rest
  end.

Definition foldAndClean (allAssignment : list expr) (init : expr) : M (option expr) :=
  do result <- foldAssignments allAssignment init;
  do _ <- cleanAssignments allAssignment;
  ret (Some result).

(** The opening check on the true branch, with the [delete] exception. *)
Definition acceptsTrueBranch (tree : DecisionTree) : bool :=
  match trueBranch tree with
  | Some tb =>
      if isDeleteExpression (condition (getDeepestFalseBranch tree))
      then isFalsyBranch (Some tb) || isTrue (condition tb)
      else isFalsyBranch (Some tb)
  | None => isFalsyBranch None
  end.

(** Lines 109-130: the leaf of flag 0. *)
Definition constructLeaf (condition : expr) : M (option expr) :=
  foldAndClean
    (nestedAssignments condition
       ++ (if isIdentifierAssignment condition then [condition] else []))
    condition.

Definition nonNullSide (condition : expr) : expr :=
  match condition with
  | BinaryExpression _ l r => if isNullLiteral l then r else l
  | _ => condition
  end.

Definition leftSide (condition : expr) : expr :=
  match condition with
  | BinaryExpression _ l _ => l
  | _ => condition
  end.

Definition nextFlag (condition : expr) : Flag :=
  match condition with
  | BinaryExpression op _ _ => if String.eqb op "==" then Flag0 else Flag1
  | _ => Flag1
  end.

(** Lines 165-180, after the recursive call has produced [cond]. *)
Definition finishGeneric (condition cond : expr) : M (option expr) :=
  let id := nonNullSide condition in
  if isNullBinary condition && (isIdentifier id || isMemberExpression id) then
    do result <- liftRewrite (applyOptionalChaining smartParenthesized id None cond);
    do _ <- setTransformed true;
    ret (Some result)
  else
    do result <- liftRewrite
      (applyOptionalChaining smartParenthesized condition None cond);
    ret (Some (LogicalExpression "||" condition result)).

(** Lines 140-162, after the recursive call has produced [cond]; [None]
    when none of the three cases returns and control reaches line 165. *)
Definition finishNullComparison (condition cond : expr) : option (M (option expr)) :=
  let nonNullExpr := nonNullSide condition in
  let lhs := leftSide condition in
  if isIdentifierAssignment nonNullExpr then
    Some (foldAndClean (nonNullExpr :: nestedAssignments nonNullExpr) cond)
  else if isIdentifier lhs || isMemberExpression lhs then
    Some (do result <- liftRewrite
            (applyOptionalChaining smartParenthesized lhs None cond);
          ret (Some result))
  else None.

Fixpoint constructOptionalChaining (tree : DecisionTree) (flag : Flag)
  : M (option expr) :=
  match tree with
  | Node condition _ falseBranch =>
      if negb (acceptsTrueBranch tree) then ret None
      else
        match flag, falseBranch with
        | Flag0, None => constructLeaf condition
        | Flag0, Some fb =>
            let generic :=
              do cond <- constructOptionalChaining fb Flag0;
              match cond with
              | None => ret None
              | Some cond => finishGeneric condition cond
              end in
            if isNullBinary condition then
              do cond <- constructOptionalChaining fb (nextFlag condition);
              match cond with
              | None => ret None
              | Some cond =>
                  match finishNullComparison condition cond with
                  | Some finish => finish
                  | None => generic
                  end
              end
            else generic
        | Flag1, None => ret None
        | Flag1, Some fb =>
            if isUndefinedBinary condition
            then constructOptionalChaining fb Flag0
            else ret None
        end
  end.

(** [convertOptionalChaining(j, path)] on [path.node = expression]. *)
Definition convertOptionalChaining (expression : expr) : M (option expr) :=
  do _ <- setTransformed false;
  let _decisionTree :=
    makeDecisionTreeWithConditionSplitting (makeDecisionTree expression) in
  let isNotNull := isNotNullBinary (condition _decisionTree) in
  let decisionTree :=
    if isNotNull then negateDecisionTree _decisionTree else _decisionTree in
  do _result <- constructOptionalChaining decisionTree Flag0;
  fun s =>
    match _result with
    | Some r =>
        if negb (transformed s) || areNodesEqual expression r then Some (None, s)
        else Some (Some (if isNotNull then negateCondition r else r), s)
    | None => Some (None, s)
    end.

End Engine.

(** ** What an attempt writes into the document

    The rewriter assigns to [node.object] (line 214) where the node stands,
    and the nodes it is given are those of the document: the conditions of a
    decision tree are sub-expressions of [path.node], and the result of one
    call, handed to the next, still holds the member expressions of the
    document that the call returned ([return node]).  The flag is looked at
    only after these assignments are made.

    Beside the result of a call, the functions below give the node the call
    started from as the call leaves it.  [leftInPlace] follows one call of
    [applyOptionalChaining] branch by branch.  Where the source hands the
    result of a call to the next one (the [reduce] of lines 117-121 and
    143-147, the calls of lines 158, 161, 172 and 178), [foldInPlace] and
    [constructInPlace] read the next call on the node as it has been left,
    taking result and node to have their member expressions at the same
    places (they differ in the nodes a builder made anew).  Nodes are values:
    a target that the rewriter puts at several places is a copy at each. *)

(** The call node with its [callee] and [arguments] as they are left. *)
Definition withCall (node callee' : expr) (args' : list expr) : expr :=
  match node with
  | CallExpression _ _ => CallExpression callee' args'
  | OptionalCallExpression _ _ => OptionalCallExpression callee' args'
  | _ => node
  end.

Definition withObjectProperty (node object' property' : expr) : expr :=
  match node with
  | MemberExpression _ _ c => MemberExpression object' property' c
  | OptionalMemberExpression _ _ c => OptionalMemberExpression object' property' c
  | _ => node
  end.

Section InPlace.

Variable smartParenthesized : expr -> expr.

(** The node [applyOptionalChaining(j, node, tempVariable, targetExpression)]
    leaves where [node] stood: a member expression has the result of the
    nested call as its object, every other node has the children the nested
    calls left. *)
Definition leftInPlace (tempVariable : expr) (targetExpression : option expr)
  : expr -> expr :=
  fix go (node : expr) {struct node} : expr :=
    let inPlaceArg := fun arg : expr =>
      if isSpreadElement arg then arg else go arg in
    let inPlaceRest := fun args : list expr =>
      match args with
      | [] => []
      | first :: rest => first :: map inPlaceArg rest
      end in
    let inPlaceApplyArguments := fun args : list expr =>
      match args with
      | first :: ArrayExpression elements :: rest =>
          first
          :: ArrayExpression
               (map (fun element : option expr =>
                       match element with
                       | Some e => Some (inPlaceArg e)
                       | None => None
                       end) elements)
          :: rest
      | _ => args
      end in
    match node with
    | MemberExpression object property computed
    | OptionalMemberExpression object property computed =>
        if areNodesEqual object tempVariable then node
        else
          match applyOptionalChaining smartParenthesized tempVariable
                  targetExpression object with
          | Some (object', _) => withObject node object'
          | None => node
          end
    | CallExpression callee args
    | OptionalCallExpression callee args =>
        let generic := withCall node (go callee) (map inPlaceArg args) in
        let direct :=
          if areNodesEqual callee tempVariable then node else generic in
        let indirect :=
          if isIndirectCallee callee tempVariable
          then withCall node callee (map inPlaceArg args)
          else direct in
        match callee with
        | MemberExpression cobject cproperty _
        | OptionalMemberExpression cobject cproperty _ =>
            let onTemp :=
              if areNodesEqual cobject tempVariable then
                match identifierName cproperty with
                | Some name =>
                    if String.eqb name "call"
                    then withCall node callee (inPlaceRest args)
                    else if String.eqb name "apply" then
                      match args with
                      | _ :: arg :: _ =>
                          if isSpreadElement arg then node
                          else withCall node callee (inPlaceApplyArguments args)
                      | _ => node
                      end
                    else indirect
                | None => indirect
                end
              else indirect in
            match cobject with
            | MemberExpression oobject oproperty _
            | OptionalMemberExpression oobject oproperty _ =>
                match identifierName cproperty with
                | Some name =>
                    if String.eqb name "call"
                       && areNodesEqual_opt (nth_arg 0 args) tempVariable
                    then withCall node (withObject callee (go cobject))
                           (inPlaceRest args)
                    else if String.eqb name "apply" then
                      match args with
                      | _ :: arg :: _ =>
                          if isSpreadElement arg then node
                          else withCall node (withObject callee (go cobject))
                                 (inPlaceApplyArguments args)
                      | _ => node
                      end
                    else if String.eqb name "bind"
                            && areNodesEqual_opt (nth_arg 0 args) tempVariable
                    then withCall node
                           (withObject callee
                              (withObjectProperty cobject (go oobject) (go oproperty)))
                           args
                    else onTemp
                | None => onTemp
                end
            | _ => onTemp
            end
        | _ => indirect
        end
    | UnaryExpression operator argument prefix =>
        UnaryExpression operator (go argument) prefix
    | _ => node
    end.

End InPlace.

(** [allAssignment.reduce(...)], for what it leaves in the node it starts
    from. *)
Fixpoint foldInPlace (sp : expr -> expr) (allAssignment : list expr) (live : expr) : expr :=
  match allAssignment with
  | [] => live
  | AssignmentExpression _ tempVariable originalVariable :: rest =>
      foldInPlace sp rest (leftInPlace sp tempVariable (Some originalVariable) live)
  | _ :: rest => foldInPlace sp rest live
  end.

(** Whether a call of the constructor returns an expression. *)
Definition returnsExpression (m : M (option expr)) : bool :=
  match m (mkState false []) with
  | Some (Some _, _) => true
  | _ => false
  end.

(** What [constructOptionalChaining(j, path, tree, flag)] leaves of the
    condition of the deepest false branch, [live] being that condition as the
    calls made so far have left it. *)
Fixpoint constructInPlace (sp : expr -> expr) (tree : DecisionTree) (flag : Flag)
    (live : expr) : expr :=
  match tree with
  | Node condition _ falseBranch =>
      if negb (acceptsTrueBranch tree) then live
      else
        match flag, falseBranch with
        | Flag0, None =>
            foldInPlace sp
              (nestedAssignments condition
                 ++ (if isIdentifierAssignment condition then [condition] else []))
              live
        | Flag0, Some fb =>
            let generic := fun live0 : expr =>
              let live1 := constructInPlace sp fb Flag0 live0 in
              if returnsExpression (constructOptionalChaining sp fb Flag0) then
                let id := nonNullSide condition in
                if isNullBinary condition && (isIdentifier id || isMemberExpression id)
                then leftInPlace sp id None live1
                else leftInPlace sp condition None live1
              else live1 in
            if isNullBinary condition then
              let live1 := constructInPlace sp fb (nextFlag condition) live in
              if returnsExpression (constructOptionalChaining sp fb (nextFlag condition))
              then
                let nonNullExpr := nonNullSide condition in
                let lhs := leftSide condition in
                if isIdentifierAssignment nonNullExpr
                then foldInPlace sp (nonNullExpr :: nestedAssignments nonNullExpr) live1
                else if isIdentifier lhs || isMemberExpression lhs
                then leftInPlace sp lhs None live1
                else generic live1
              else live1
            else generic live
        | Flag1, None => live
        | Flag1, Some fb =>
            if isUndefinedBinary condition
            then constructInPlace sp fb Flag0 live
            else live
        end
  end.

(** The sub-expression that becomes the condition of the deepest false
    branch of the decision tree, and the expression with that sub-expression
    rewritten. *)
Fixpoint updateFalseAtom (f : expr -> expr) (c : expr) : expr :=
  match c with
  | LogicalExpression op l r =>
      if String.eqb op "&&" then LogicalExpression op (updateFalseAtom f l) r
      else if String.eqb op "||" then LogicalExpression op l (updateFalseAtom f r)
      else f c
  | _ => f c
  end.

Fixpoint updateFalseLeaf (f : expr -> expr) (e : expr) : expr :=
  match e with
  | ConditionalExpression t c a => ConditionalExpression t c (updateFalseLeaf f a)
  | LogicalExpression op l r =>
      if String.eqb op "&&" then LogicalExpression op (updateFalseAtom f l) r
      else if String.eqb op "||" then LogicalExpression op l (updateFalseLeaf f r)
      else f e
  | _ => f e
  end.

Fixpoint updateTrueAtom (f : expr -> expr) (c : expr) : expr :=
  match c with
  | LogicalExpression op l r =>
      if String.eqb op "&&" then LogicalExpression op l (updateTrueAtom f r)
      else if String.eqb op "||" then LogicalExpression op (updateTrueAtom f l) r
      else f c
  | _ => f c
  end.

Fixpoint updateTrueLeaf (f : expr -> expr) (e : expr) : expr :=
  match e with
  | ConditionalExpression t c a => ConditionalExpression t (updateTrueLeaf f c) a
  | LogicalExpression op l r =>
      if String.eqb op "&&" then LogicalExpression op l (updateTrueLeaf f r)
      else if String.eqb op "||" then LogicalExpression op (updateTrueAtom f l) r
      else f e
  | _ => f e
  end.

(** The sub-expression [updateFalseLeaf] rewrites, and the one
    [updateTrueLeaf] rewrites. *)
Fixpoint falseAtom (c : expr) : expr :=
  match c with
  | LogicalExpression op l r =>
      if String.eqb op "&&" then falseAtom l
      else if String.eqb op "||" then falseAtom r
      else c
  | _ => c
  end.

Fixpoint falseLeaf (e : expr) : expr :=
  match e with
  | ConditionalExpression _ _ a => falseLeaf a
  | LogicalExpression op l r =>
      if String.eqb op "&&" then falseAtom l
      else if String.eqb op "||" then falseLeaf r
      else e
  | _ => e
  end.

Fixpoint trueAtom (c : expr) : expr :=
  match c with
  | LogicalExpression op l r =>
      if String.eqb op "&&" then trueAtom r
      else if String.eqb op "||" then trueAtom l
      else c
  | _ => c
  end.

Fixpoint trueLeaf (e : expr) : expr :=
  match e with
  | ConditionalExpression _ c _ => trueLeaf c
  | LogicalExpression op l r =>
      if String.eqb op "&&" then trueLeaf r
      else if String.eqb op "||" then trueAtom l
      else e
  | _ => e
  end.

(** The counterpart of [getDeepestFalseBranch] in the tree before its
    negation. *)
Fixpoint getDeepestTrueBranch (tree : DecisionTree) : DecisionTree :=
  match tree with
  | Node _ None _ => tree
  | Node _ (Some tb) _ => getDeepestTrueBranch tb
  end.

(** [e.argument] of a unary expression. *)
Definition argumentOf (e fallback : expr) : expr :=
  match e with
  | UnaryExpression _ a _ => a
  | _ => fallback
  end.

(** The live condition [x] once its negation, rewritten where it stands,
    reads [negated']. *)
Definition unnegateInPlace (x negated' : expr) : expr :=
  match x with
  | UnaryExpression op _ p =>
      if String.eqb op "!" then UnaryExpression op negated' p
      else argumentOf negated' x
  | BinaryExpression op _ _ =>
      match negateOperator op with
      | Some _ => x
      | None => argumentOf negated' x
      end
  | LogicalExpression op _ _ =>
      if String.eqb op "&&" || String.eqb op "||" then x
      else argumentOf negated' x
  | _ => argumentOf negated' x
  end.

(** [path.node] as [convertOptionalChaining(j, path)] leaves it.  With a
    not-null test the tree is the negated one, whose deepest false branch holds
    the negation of the condition of the deepest true branch. *)
Definition convertInPlace (sp : expr -> expr) (expression : expr) : expr :=
  let _decisionTree :=
    makeDecisionTreeWithConditionSplitting (makeDecisionTree expression) in
  if isNotNullBinary (condition _decisionTree) then
    updateTrueLeaf
      (fun x => unnegateInPlace x
                  (constructInPlace sp (negateDecisionTree _decisionTree) Flag0
                     (negateCondition x)))
      expression
  else
    updateFalseLeaf (constructInPlace sp _decisionTree Flag0) expression.

(** ** Nullish-coalescing chain analyzer *)

Record PropertyInfo : Type := mkProperty {
  propertyName : string;
  computed : bool
}.

Record VarAssignment : Type := mkVar {
  varName : string;
  parent : option string;
  source : expr;
  properties : list PropertyInfo
}.

(** A JavaScript [Map<string, VarAssignment>]: keys are kept in insertion
    order, and setting a present key keeps its place. *)
Definition VarMap : Type := list (string * VarAssignment).

Fixpoint mapGet (m : VarMap) (k : string) : option VarAssignment :=
  match m with
  | [] => None
  | (k', v) :: m' => if String.eqb k' k then Some v else mapGet m' k
  end.

Definition mapHas (m : VarMap) (k : string) : bool :=
  match mapGet m k with Some _ => true | None => false end.

Fixpoint mapSet (m : VarMap) (k : string) (v : VarAssignment) : VarMap :=
  match m with
  | [] => [(k, v)]
  | (k', v') :: m' =>
      if String.eqb k' k then (k, v) :: m' else (k', v') :: mapSet m' k v
  end.

(** Truthiness of a [string | null]. *)
Definition truthy (s : option string) : bool :=
  match s with
  | Some s => negb (String.eqb s "")
  | None => false
  end.

Definition isIdentStart (c : ascii) : bool :=
  let n := nat_of_ascii c in
  ((65 <=? n) && (n <=? 90) || (97 <=? n) && (n <=? 122)
   || (n =? 95) || (n =? 36))%nat.

Definition isIdentPart (c : ascii) : bool :=
  let n := nat_of_ascii c in
  (isIdentStart c || (48 <=? n) && (n <=? 57))%nat.

Fixpoint allChars (p : ascii -> bool) (s : string) : bool :=
  match s with
  | EmptyString => true
  | String c s' => p c && allChars p s'
  end.

(** [/^[a-zA-Z_$][a-zA-Z0-9_$]*$/.test(str)]. *)
Definition isValidIdentifier (str : string) : bool :=
  match str with
  | EmptyString => false
  | String c s' => isIdentStart c && allChars isIdentPart s'
  end.

Fixpoint extractLogicalOrConditions (e : expr) : list expr :=
  match e with
  | LogicalExpression op l r =>
      if String.eqb op "||"
      then extractLogicalOrConditions l ++ extractLogicalOrConditions r
      else [e]
  | _ => [e]
  end.

Definition isComparisonOperator (op : string) : bool :=
  String.eqb op "==" || String.eqb op "===" || String.eqb op "!="
  || String.eqb op "!==".

(** The test that lets a binary condition through the [continue] of
    [analyzeConditions]. *)
Definition isNullishCheck (op : string) (l r : expr) : bool :=
  isComparisonOperator op
  && (isNull l || isNull r || isUndefined l || isUndefined r).

Section Analyzer.

(** [j(property).toSource()], the printer of the AST library. *)
Variable toSource : expr -> string.

Definition propertyNameOf (property : expr) : string :=
  match property with
  | Identifier n => n
  | _ => toSource property
  end.

Definition rootEntry (name : string) (e : expr) : VarAssignment :=
  mkVar name None e [].

(** One iteration of the loop of [analyzeConditions]. *)
Definition analyzeCondition (st : option string * VarMap) (condition : expr)
  : option string * VarMap :=
  match condition with
  | BinaryExpression operator l r =>
      if negb (isNullishCheck operator l r) then st
      else
        let e := if isNull l || isUndefined l then r else l in
        (* direct variable check *)
        let st1 :=
          match e with
          | Identifier name =>
              if negb (truthy (fst st))
              then (Some name, mapSet (snd st) name (rootEntry name e))
              else st
          | _ => st
          end in
        (* property assignment *)
        match e with
        | AssignmentExpression _ (Identifier assignedVar) sourceExpr =>
            match sourceExpr with
            | MemberExpression objExpr property comp
            | OptionalMemberExpression objExpr property comp =>
                let parentVar := identifierName objExpr in
                let st2 :=
                  match parentVar with
                  | Some p =>
                      if negb (truthy (fst st1)) && negb (mapHas (snd st1) p)
                      then (Some p, mapSet (snd st1) p (rootEntry p objExpr))
                      else st1
                  | None => st1
                  end in
                (fst st2,
                 mapSet (snd st2) assignedVar
                   (mkVar assignedVar parentVar sourceExpr
                      [mkProperty (propertyNameOf property) comp]))
            | _ => st1
            end
        | _ => st1
        end
  | _ => st
  end.

Definition analyzeConditions (conditions : list expr) : option string * VarMap :=
  fold_left analyzeCondition conditions (None, []).

(** [varInfo.properties.forEach(prop => propertyChain.unshift(prop))]. *)
Definition unshiftAll (props chain : list PropertyInfo) : list PropertyInfo :=
  fold_left (fun acc p => p :: acc) props chain.

(** The [while (currentVar && varMap.has(currentVar))] loop; [None] when
    the fuel runs out before the loop exits. *)
Fixpoint traceBack (fuel : nat) (varMap : VarMap) (currentVar : string)
    (chain : list PropertyInfo) : option (list PropertyInfo) :=
  match fuel with
  | O => None
  | S fuel' =>
      if negb (String.eqb currentVar "") then
        match mapGet varMap currentVar with
        | Some varInfo =>
            traceBack fuel' varMap (default "" (parent varInfo))
              (unshiftAll (properties varInfo) chain)
        | None => Some chain
        end
      else Some chain
  end.

Definition propertyNode (p : PropertyInfo) : expr :=
  if computed p || negb (isValidIdentifier (propertyName p))
  then Literal (propertyName p)
  else Identifier (propertyName p).

Definition buildChainExpression (rootVar : string) (chain : list PropertyInfo) : expr :=
  fold_left (fun e p => OptionalMemberExpression e (propertyNode p) (computed p))
    chain (Identifier rootVar).

(** [buildOptionalChain]; the outer [None] is an exhausted fuel. *)
Definition buildOptionalChain (fuel : nat) (rootVar : string) (varMap : VarMap)
    (finalAccess : expr) : option (option expr) :=
  let propertyChain :=
    match finalAccess with
    | MemberExpression (Identifier obj) prop comp
    | OptionalMemberExpression (Identifier obj) prop comp =>
        if mapHas varMap obj
        then traceBack fuel varMap obj [mkProperty (propertyNameOf prop) comp]
        else Some []
    | _ => Some []
    end in
  match propertyChain with
  | None => None
  | Some [] => Some None
  | Some chain => Some (Some (buildChainExpression rootVar chain))
  end.

(** The names [cleanupTemporaryVariables] hands to the Scope Cleaner. *)
Definition cleanupTemporaryVariables (varMap : VarMap) : list string :=
  map fst varMap.

(** [analyzeOptionalChain(j, path, cleanUpVariables)] on [path.node = node]:
    the result and the names handed to the Scope Cleaner; the outer [None]
    is an exhausted fuel. *)
Definition analyzeOptionalChain (fuel : nat) (node : expr) (cleanUpVariables : bool)
  : option (option expr * list string) :=
  match node with
  | ConditionalExpression
      (LogicalExpression op
         (BinaryExpression cmp cl
            (AssignmentExpression _ (Identifier tempVar) nestedConditional)) _)
      (Identifier consequentName) alternate =>
      if negb (String.eqb op "&&") then Some (None, [])
      else if negb (String.eqb cmp "!==" || String.eqb cmp "!=") then Some (None, [])
      else if negb (isNull cl) then Some (None, [])
      else if negb (String.eqb tempVar consequentName) then Some (None, [])
      else
        match nestedConditional with
        | ConditionalExpression ntest nconsequent nalternate =>
            if negb (isUndefined nconsequent) then Some (None, [])
            else if negb (isMemberExpression nalternate) then Some (None, [])
            else
              let orConditions := extractLogicalOrConditions ntest in
              let '(rootVar, varMap) := analyzeConditions orConditions in
              match rootVar with
              | Some root =>
                  if String.eqb root "" then Some (None, [])
                  else
                    match buildOptionalChain fuel root varMap nalternate with
                    | None => None
                    | Some None => Some (None, [])
                    | Some (Some finalExpr) =>
                        Some (Some (LogicalExpression "??" finalExpr alternate),
                              if cleanUpVariables
                              then cleanupTemporaryVariables varMap
                              else [])
                    end
              | None => Some (None, [])
              end
        | _ => Some (None, [])
        end
  | _ => Some (None, [])
  end.

End Analyzer.

(** ** The driver

    [transformAST] is written against the AST library: [root.find] returns
    the paths of the matching nodes, [path.node] reads a path, [path.replace]
    rewrites the document, and paths are compared by identity in [visited].
    The driver is embedded over these operations and over the effect an
    attempt has on the document before it returns. *)

Inductive Outcome (S : Type) : Type :=
  | Finished (st : S)
  | Threw.
Arguments Finished {S} st.
Arguments Threw {S}.

Section Driver.

Context {Doc Path : Type} `{EqDecision Path}.
Variable findConditional : Doc -> list Path.
Variable findLogical : Doc -> list Path.
Variable nodeOf : Doc -> Path -> expr.
Variable replace : Doc -> Path -> expr -> Doc.
(** [afterAttempt doc path node' names]: the document once the attempt on
    [path] has left [node'] where [path.node] stood and has handed [names] to
    [removeDeclarationIfUnused]. *)
Variable afterAttempt : Doc -> Path -> expr -> list string -> Doc.
Variable smartParenthesized : expr -> expr.

(** The document, the [visited] set (most recent first) and the engine
    state. *)
Record DriverState : Type := mkDriver {
  document : Doc;
  visited : list Path;
  engine : EngineState
}.

(** The callback of [forEach]; [None] when the attempt throws.  The attempt
    has written into the node and called the Scope Cleaner by the time its
    result is looked at. *)
Definition visitPath (st : DriverState) (path : Path) : option DriverState :=
  if bool_decide (path ∈ visited st) then Some st
  else
    let node := nodeOf (document st) path in
    match convertOptionalChaining smartParenthesized node (engine st) with
    | None => None
    | Some (result, es) =>
        let written :=
          afterAttempt (document st) path
            (convertInPlace smartParenthesized node)
            (drop (length (cleaned (engine st))) (cleaned es)) in
        Some (mkDriver
                (match result with
                 | Some r => replace written path r
                 | None => written
                 end)
                (path :: visited st) es)
    end.

Fixpoint forEachPath (paths : list Path) (st : DriverState) : option DriverState :=
  match paths with
  | [] => Some st
  | path :: rest =>
      match visitPath st path with
      | None => None
      | Some st' => forEachPath rest st'
      end
  end.

(** One iteration of the [while] loop. *)
Definition pass (st : DriverState) : option DriverState :=
  match forEachPath (findConditional (document st)) st with
  | None => None
  | Some st' => forEachPath (findLogical (document st')) st'
  end.

(** [while (passes--) { ... }]; [None] when the fuel runs out. *)
Fixpoint whilePasses (fuel : nat) (passes : Z) (st : DriverState)
  : option (Outcome DriverState) :=
  match fuel with
  | O => None
  | S fuel' =>
      if Z.eqb passes 0 then Some (Finished st)
      else
        match pass st with
        | None => Some Threw
        | Some st' => whilePasses fuel' (passes - 1) st'
        end
  end.

Definition transformAST (fuel : nat) (root : Doc) : option (Outcome DriverState) :=
  whilePasses fuel 5 (mkDriver root [] (mkState false [])).

(** [n] iterations of the loop body. *)
Fixpoint runPasses (n : nat) (st : DriverState) : Outcome DriverState :=
  match n with
  | O => Finished st
  | S n' =>
      match pass st with
      | None => Threw
      | Some st' => runPasses n' st'
      end
  end.

End Driver.

Arguments mkDriver {Doc Path} _ _ _.
Arguments document {Doc Path} _.
Arguments visited {Doc Path} _.
Arguments engine {Doc Path} _.

(** ** A document made of one expression

    A host for the driver: the document is an expression tree, a node is
    reached by the list of child indices that leads to it, and a path is such
    a position together with a stamp.  Replacing the node of a path keeps the
    path and gives fresh paths to everything below it; a path collected before
    that replacement no longer leads into the document. *)

Definition Position : Type := list nat.

Definition childAt (e : expr) (i : nat) : option expr :=
  match e with
  | UnaryExpression _ a _ | SpreadElement a | ParenthesizedExpression a =>
      [a] !! i
  | BinaryExpression _ l r | LogicalExpression _ l r
  | AssignmentExpression _ l r
  | MemberExpression l r _ | OptionalMemberExpression l r _ => [l; r] !! i
  | ConditionalExpression t c a => [t; c; a] !! i
  | CallExpression c args | OptionalCallExpression c args => (c :: args) !! i
  | SequenceExpression es | OtherNode _ es => es !! i
  | ArrayExpression els => mjoin (els !! i)
  | _ => None
  end.

Definition setChild (e : expr) (i : nat) (x : expr) : expr :=
  match e, i with
  | UnaryExpression op _ p, 0 => UnaryExpression op x p
  | SpreadElement _, 0 => SpreadElement x
  | ParenthesizedExpression _, 0 => ParenthesizedExpression x
  | BinaryExpression op _ r, 0 => BinaryExpression op x r
  | BinaryExpression op l _, 1 => BinaryExpression op l x
  | LogicalExpression op _ r, 0 => LogicalExpression op x r
  | LogicalExpression op l _, 1 => LogicalExpression op l x
  | AssignmentExpression op _ r, 0 => AssignmentExpression op x r
  | AssignmentExpression op l _, 1 => AssignmentExpression op l x
  | MemberExpression _ p c, 0 => MemberExpression x p c
  | MemberExpression o _ c, 1 => MemberExpression o x c
  | OptionalMemberExpression _ p c, 0 => OptionalMemberExpression x p c
  | OptionalMemberExpression o _ c, 1 => OptionalMemberExpression o x c
  | ConditionalExpression _ c a, 0 => ConditionalExpression x c a
  | ConditionalExpression t _ a, 1 => ConditionalExpression t x a
  | ConditionalExpression t c _, 2 => ConditionalExpression t c x
  | CallExpression _ args, 0 => CallExpression x args
  | CallExpression c args, S j => CallExpression c (<[j:=x]> args)
  | OptionalCallExpression _ args, 0 => OptionalCallExpression x args
  | OptionalCallExpression c args, S j => OptionalCallExpression c (<[j:=x]> args)
  | SequenceExpression es, _ => SequenceExpression (<[i:=x]> es)
  | OtherNode t es, _ => OtherNode t (<[i:=x]> es)
  | ArrayExpression els, _ => ArrayExpression (<[i:=Some x]> els)
  | _, _ => e
  end.

Fixpoint nodeAt (e : expr) (p : Position) : option expr :=
  match p with
  | [] => Some e
  | i :: p' =>
      match childAt e i with
      | Some c => nodeAt c p'
      | None => None
      end
  end.

Fixpoint replaceAt (e : expr) (p : Position) (x : expr) : expr :=
  match p with
  | [] => x
  | i :: p' =>
      match childAt e i with
      | Some c => setChild e i (replaceAt c p' x)
      | None => e
      end
  end.

Definition indexedPaths {A} (f : A -> list Position)
  : nat -> list A -> list Position :=
  fix go i l :=
    match l with
    | [] => []
    | c :: l' => (map (cons i) (f c) ++ go (S i) l')%list
    end.

(** The positions of the nodes accepted by [accepts], in traversal order. *)
Fixpoint findPositions (accepts : expr -> bool) (e : expr) : list Position :=
  (if accepts e then [[]] else []) ++
  match e with
  | UnaryExpression _ a _ | SpreadElement a | ParenthesizedExpression a =>
      map (cons 0) (findPositions accepts a)
  | BinaryExpression _ l r | LogicalExpression _ l r
  | AssignmentExpression _ l r
  | MemberExpression l r _ | OptionalMemberExpression l r _ =>
      map (cons 0) (findPositions accepts l)
      ++ map (cons 1) (findPositions accepts r)
  | ConditionalExpression t c a =>
      map (cons 0) (findPositions accepts t)
      ++ map (cons 1) (findPositions accepts c)
      ++ map (cons 2) (findPositions accepts a)
  | CallExpression c args | OptionalCallExpression c args =>
      map (cons 0) (findPositions accepts c)
      ++ indexedPaths (findPositions accepts) 1 args
  | SequenceExpression es | OtherNode _ es =>
      indexedPaths (findPositions accepts) 0 es
  | ArrayExpression els =>
      indexedPaths (fun el => match el with
                              | Some x => findPositions accepts x
                              | None => []
                              end) 0 els
  | _ => []
  end.

Definition isConditionalExpression (e : expr) : bool :=
  match e with ConditionalExpression _ _ _ => true | _ => false end.

(** [{ operator: op => op === '&&' || op === '||' }]. *)
Definition isAndOrExpression (e : expr) : bool :=
  match e with
  | LogicalExpression op _ _ => String.eqb op "&&" || String.eqb op "||"
  | _ => false
  end.

Record TreeDoc : Type := mkDoc {
  tree : expr;
  replaced : list Position   (* the positions replaced so far, oldest first *)
}.

Definition isStrictPrefix (p q : Position) : bool :=
  (length p <? length q)%nat && bool_decide (take (length p) q = p).

Fixpoint lastStrictPrefix (n : nat) (log : list Position) (q : Position) : nat :=
  match log with
  | [] => 0
  | p :: log' =>
      let later := lastStrictPrefix (S n) log' q in
      if (later =? 0)%nat then (if isStrictPrefix p q then S n else 0) else later
  end.

(** The stamp of the path that currently leads to position [q]: the rank of
    the last replacement above it. *)
Definition stamp (d : TreeDoc) (q : Position) : nat :=
  lastStrictPrefix 0 (replaced d) q.

Definition TreePath : Type := Position * nat.

Definition isLive (d : TreeDoc) (path : TreePath) : bool :=
  (snd path =? stamp d (fst path))%nat.

Definition treeFind (accepts : expr -> bool) (d : TreeDoc) : list TreePath :=
  map (fun q => (q, stamp d q)) (findPositions accepts (tree d)).

(** [path.node]; a path that no longer leads into the document is given an
    inert node. *)
Definition treeNodeOf (d : TreeDoc) (path : TreePath) : expr :=
  if isLive d path
  then default (OtherNode "detached" []) (nodeAt (tree d) (fst path))
  else OtherNode "detached" [].

Definition treeReplace (d : TreeDoc) (path : TreePath) (x : expr) : TreeDoc :=
  if isLive d path
  then mkDoc (replaceAt (tree d) (fst path) x) (replaced d ++ [fst path])
  else d.

(** What an attempt leaves of its node stands at the position of the path.
    An assignment to a field makes no path anew in this host: the paths keep
    their stamps.  A document of one expression has no declaration for the
    Scope Cleaner to remove. *)
Definition treeAfterAttempt (d : TreeDoc) (path : TreePath) (node' : expr)
    (names : list string) : TreeDoc :=
  if isLive d path
  then mkDoc (replaceAt (tree d) (fst path) node') (replaced d)
  else d.

Definition transformTree (smartParenthesized : expr -> expr) (fuel : nat) (e : expr)
  : option (Outcome (DriverState (Doc:=TreeDoc) (Path:=TreePath))) :=
  transformAST (treeFind isConditionalExpression) (treeFind isAndOrExpression)
    treeNodeOf treeReplace treeAfterAttempt smartParenthesized fuel (mkDoc e []).

(** The expression a finished run leaves in the document. *)
Definition resultTree (o : option (Outcome (DriverState (Doc:=TreeDoc) (Path:=TreePath))))
  : option expr :=
  match o with
  | Some (Finished st) => Some (tree (document st))
  | _ => None
  end.

(** ** Sample expressions *)

(** An instance of the parenthesizing parameter for the closed examples:
    expressions that bind looser than a member access get parentheses. *)
Definition parenthesizeLoose (e : expr) : expr :=
  match e with
  | AssignmentExpression _ _ _ | SequenceExpression _
  | ConditionalExpression _ _ _ | LogicalExpression _ _ _
  | BinaryExpression _ _ _ | UnaryExpression _ _ _ => ParenthesizedExpression e
  | _ => e
  end.

Definition dot (o : expr) (p : string) : expr := MemberExpression o (Identifier p) false.
Definition optDot (o : expr) (p : string) : expr :=
  OptionalMemberExpression o (Identifier p) false.
Definition void0 : expr := UnaryExpression "void" (NumericLiteral 0) true.
Definition undefinedId : expr := Identifier "undefined".
Definition assign (x : string) (e : expr) : expr :=
  AssignmentExpression "=" (Identifier x) e.
Definition emptyState : EngineState := mkState false [].

(** [a !== null && a !== undefined && a.b !== null && a.b !== undefined] *)
Definition notNullGuards : expr :=
  let a := Identifier "a" in
  LogicalExpression "&&"
    (LogicalExpression "&&"
       (LogicalExpression "&&"
          (BinaryExpression "!==" a NullLiteral)
          (BinaryExpression "!==" a undefinedId))
       (BinaryExpression "!==" (dot a "b") NullLiteral))
    (BinaryExpression "!==" (dot a "b") undefinedId).

(** [a === null || a === undefined || a.b === null || a.b === undefined] *)
Definition nullGuards : expr :=
  let a := Identifier "a" in
  LogicalExpression "||"
    (LogicalExpression "||"
       (LogicalExpression "||"
          (BinaryExpression "===" a NullLiteral)
          (BinaryExpression "===" a undefinedId))
       (BinaryExpression "===" (dot a "b") NullLiteral))
    (BinaryExpression "===" (dot a "b") undefinedId).

Definition a_b_c : expr := dot (dot (Identifier "a") "b") "c".
Definition a_opt_b_opt_c : expr := optDot (optDot (Identifier "a") "b") "c".

(** [notNullGuards ? a.b.c : undefined] *)
Definition notNullConditional : expr :=
  ConditionalExpression notNullGuards a_b_c undefinedId.
(** [notNullGuards && a.b.c] *)
Definition notNullLogical : expr := LogicalExpression "&&" notNullGuards a_b_c.
(** [nullGuards ? undefined : a.b.c] *)
Definition nullConditional : expr :=
  ConditionalExpression nullGuards undefinedId a_b_c.

(** [a ? b : c] *)
Definition plainConditional : expr :=
  ConditionalExpression (Identifier "a") (Identifier "b") (Identifier "c").

(** [a || (b = c.d).e()] *)
Definition assignedReceiver : expr :=
  LogicalExpression "||" (Identifier "a")
    (CallExpression (dot (assign "b" (dot (Identifier "c") "d")) "e") []).

(** [a || c.d.e()] *)
Definition assignedReceiverWritten : expr :=
  LogicalExpression "||" (Identifier "a")
    (CallExpression (dot (dot (Identifier "c") "d") "e") []).

(** [arg => j.SpreadElement.check(arg) ? arg : applyOptionalChaining(j, arg,
    tempVariable, targetExpression)], the callback of every [args.map]. *)
Definition rewriteArg (sp : expr -> expr) (tempVariable : expr)
    (targetExpression : option expr) (arg : expr) : option (expr * bool) :=
  if isSpreadElement arg then Some (arg, false)
  else applyOptionalChaining sp tempVariable targetExpression arg.

Definition rewriteElement (sp : expr -> expr) (tempVariable : expr)
    (targetExpression : option expr) (element : option expr) : option (expr * bool) :=
  match element with
  | Some e => rewriteArg sp tempVariable targetExpression e
  | None => Some (rewriteIdentifier sp tempVariable targetExpression "undefined", false)
  end.

(** The call nodes the rewriter looks at: the call and its member callee may
    each be of the plain or of the optional type. *)
Definition callNode (optional : bool) (callee : expr) (args : list expr) : expr :=
  if optional then OptionalCallExpression callee args else CallExpression callee args.
Definition memberNode (optional : bool) (object property : expr) (computed : bool) : expr :=
  if optional then OptionalMemberExpression object property computed
  else MemberExpression object property computed.

(** [receiver.apply(first, arg, ...rest)] *)
Definition applyCall (optCall optCallee : bool) (receiver : expr) (computed : bool)
    (first arg : expr) (rest : list expr) : expr :=
  callNode optCall (memberNode optCallee receiver (Identifier "apply") computed)
    (first :: arg :: rest).

(** [receiver.method(...args)] *)
Definition methodCall (optCall optCallee : bool) (receiver : expr) (method : string)
    (computed : bool) (args : list expr) : expr :=
  callNode optCall (memberNode optCallee receiver (Identifier method) computed) args.

(** [o.m.apply(t, [x, , y])] *)
Definition applyWithHole : expr :=
  applyCall false false (dot (Identifier "o") "m") false (Identifier "t")
    (ArrayExpression [Some (Identifier "x"); None; Some (Identifier "y")]) [].

(** [f.m.apply(x, [ , ])], an array literal made of one hole. *)
Definition applyOnlyHole : expr :=
  applyCall false false (dot (Identifier "f") "m") false (Identifier "x")
    (ArrayExpression [None]) [].

(** [null == (undefined = v) ? void 0 : f.m.apply(x, [ , ])] *)
Definition undefinedAsTemporary : expr :=
  ConditionalExpression
    (BinaryExpression "==" NullLiteral (assign "undefined" (Identifier "v")))
    void0 applyOnlyHole.

(** The identifiers a list of assignments assigns to, in order. *)
Fixpoint assignedNames (allAssignment : list expr) : list string :=
  match allAssignment with
  | [] => []
  | AssignmentExpression _ (Identifier name) _ :: rest => name :: assignedNames rest
  | _ :: rest => assignedNames rest
  end.

(** The assignments the leaf of flag 0 folds into its condition. *)
Definition leafAssignments (condition : expr) : list expr :=
  nestedAssignments condition
    ++ (if isIdentifierAssignment condition then [condition] else []).

Definition leaf (e : expr) : DecisionTree := Node e None None.

(** The node of [a === void 0] with the falsy leaf [void 0] on its true
    branch and [a.b] on its false branch. *)
Definition undefinedCheckNode : DecisionTree :=
  Node (BinaryExpression "===" (Identifier "a") void0)
    (Some (leaf void0)) (Some (leaf (dot (Identifier "a") "b"))).

(** [(t = x.y).z], a leaf condition with an embedded assignment. *)
Definition leafWithTemporary : expr :=
  MemberExpression (assign "t" (dot (Identifier "x") "y")) (Identifier "z") false.

(** A sub-condition that [analyzeConditions] lets through its [continue]:
    a binary comparison with a null or undefined side. *)
Definition isNullishBinary (c : expr) : bool :=
  match c with
  | BinaryExpression op l r => isNullishCheck op l r
  | _ => false
  end.

(** The conditional [op]-test wrapped around a temporary, as
    [analyzeOptionalChain] takes it apart:
    [cmp(cl, tmp = (ntest ? ncons : nalt)) op rhs ? consName : fallback]. *)
Definition coalescingNode (op cmp : string) (cl : expr) (tmp : string)
    (ntest ncons nalt rhs : expr) (consName : string) (fallback : expr) : expr :=
  ConditionalExpression
    (LogicalExpression op
       (BinaryExpression cmp cl
          (AssignmentExpression "=" (Identifier tmp)
             (ConditionalExpression ntest ncons nalt)))
       rhs)
    (Identifier consName) fallback.

(** [null !== (t = cond ? void 0 : obj.prop) && void 0 !== t ? t : fallback] *)
Definition desugaredCoalescing (tmp : string) (cond : expr) (obj prop : string)
    (fallback : expr) : expr :=
  coalescingNode "&&" "!==" NullLiteral tmp cond void0 (dot (Identifier obj) prop)
    (BinaryExpression "!==" void0 (Identifier tmp)) tmp fallback.

Definition orChain (first : expr) (rest : list expr) : expr :=
  fold_left (LogicalExpression "||") rest first.

(** [null == r || x > 0 || null === (n = r.app_info) || void 0 === n] *)
Definition guardsWithForeign : expr :=
  orChain (BinaryExpression "==" NullLiteral (Identifier "r"))
    [BinaryExpression ">" (Identifier "x") (NumericLiteral 0);
     BinaryExpression "===" NullLiteral (assign "n" (dot (Identifier "r") "app_info"));
     BinaryExpression "===" void0 (Identifier "n")].

(** The guards of a chain of temporaries: [null === (tmp = parent.prop)] and
    [void 0 === tmp] for each step, every step reading from the temporary of
    the step before. *)
Fixpoint chainConditions (parentName : string) (steps : list (string * string))
  : list expr :=
  match steps with
  | [] => []
  | (tmp, prop) :: rest =>
      BinaryExpression "===" NullLiteral (assign tmp (dot (Identifier parentName) prop))
      :: BinaryExpression "===" void0 (Identifier tmp)
      :: chainConditions tmp rest
  end.

(** [null == root] followed by the guards of the steps. *)
Definition guardConditions (root : string) (steps : list (string * string)) : list expr :=
  BinaryExpression "==" NullLiteral (Identifier root) :: chainConditions root steps.

(** The variable the last step assigns to, the root when there is no step. *)
Fixpoint lastName (parentName : string) (steps : list (string * string)) : string :=
  match steps with
  | [] => parentName
  | (tmp, _) :: rest => lastName tmp rest
  end.

(** [root?.p1?. ... ?.pn] *)
Definition optionalChain (root : string) (props : list string) : expr :=
  fold_left optDot props (Identifier root).

(** The names of a chain are not empty and differ from one another, and its
    properties pass [isValidIdentifier]. *)
Definition wellFormedChain (root : string) (steps : list (string * string))
    (finalProp : string) : bool :=
  forallb (fun n => negb (String.eqb n "")) (root :: map fst steps)
  && bool_decide (NoDup (root :: map fst steps))
  && forallb isValidIdentifier (map snd steps ++ [finalProp])%list.

(** The entries [analyzeConditions] records for the steps of a chain. *)
Fixpoint chainEntries (parentName : string) (steps : list (string * string)) : VarMap :=
  match steps with
  | [] => []
  | (tmp, prop) :: rest =>
      (tmp, mkVar tmp (Some parentName) (dot (Identifier parentName) prop)
              [mkProperty prop false])
      :: chainEntries tmp rest
  end.

Definition stepProperties (steps : list (string * string)) : list PropertyInfo :=
  map (fun tp => mkProperty (snd tp) false) steps.

Definition chainMap (root : string) (steps : list (string * string)) : VarMap :=
  (root, rootEntry root (Identifier root)) :: chainEntries root steps.

(** [null == r || null === (n = r.app_info) || void 0 === n || null === (o =
    n.base_info) || void 0 === o] *)
Definition quotedGuards : expr :=
  orChain (BinaryExpression "==" NullLiteral (Identifier "r"))
    [BinaryExpression "===" NullLiteral (assign "n" (dot (Identifier "r") "app_info"));
     BinaryExpression "===" void0 (Identifier "n");
     BinaryExpression "===" NullLiteral (assign "o" (dot (Identifier "n") "base_info"));
     BinaryExpression "===" void0 (Identifier "o")].

(** [c || c.f.call.call(c, c, 1)] *)
Definition callOfCall : expr :=
  let c := Identifier "c" in
  LogicalExpression "||" c
    (CallExpression (dot (dot (dot c "f") "call") "call") [c; c; NumericLiteral 1]).

(** [x == null ? void 0 : x.f(inner)] *)
Definition guardedCall (x : string) (inner : expr) : expr :=
  ConditionalExpression (BinaryExpression "==" (Identifier x) NullLiteral) void0
    (CallExpression (dot (Identifier x) "f") [inner]).

(** Six guarded calls, each the argument of the one before. *)
Definition deepNesting : expr :=
  guardedCall "a" (guardedCall "b" (guardedCall "c" (guardedCall "d"
    (guardedCall "e" (guardedCall "g" (Identifier "z")))))).

(** [x?.f(inner)] *)
Definition optionalCallOf (x : string) (inner : expr) : expr :=
  CallExpression (optDot (Identifier x) "f") [inner].

(** [null !== (t = null === (n = n.a) ? void 0 : n.b) && void 0 !== t ? t :
    fallback], a guard that assigns a variable from a property of itself. *)
Definition selfAssignedChain (n t a b : string) (fallback : expr) : expr :=
  ConditionalExpression
    (LogicalExpression "&&"
       (BinaryExpression "!==" NullLiteral
          (assign t
             (ConditionalExpression
                (BinaryExpression "===" NullLiteral (assign n (dot (Identifier n) a)))
                void0 (dot (Identifier n) b))))
       (BinaryExpression "!==" void0 (Identifier t)))
    (Identifier t) fallback.

Definition isOrExpression (e : expr) : bool :=
  match e with
  | LogicalExpression op _ _ => String.eqb op "||"
  | _ => false
  end.

(** The tree [convertOptionalChaining] hands to the constructor. *)
Definition attemptTree (expression : expr) : DecisionTree :=
  let _decisionTree :=
    makeDecisionTreeWithConditionSplitting (makeDecisionTree expression) in
  if isNotNullBinary (condition _decisionTree)
  then negateDecisionTree _decisionTree
  else _decisionTree.

(** The candidate is turned down by the check on the true branch that opens
    [constructOptionalChaining] (lines 100-103). *)
Definition rejectedAtOpening (expression : expr) : bool :=
  negb (acceptsTrueBranch (attemptTree expression)).

Section Convergence.

Variable smartParenthesized : expr -> expr.

(** An attempt that returns null, hands no name to the Scope Cleaner and
    leaves its node as it found it. *)
Definition quietAttempt (node : expr) : Prop :=
  convertInPlace smartParenthesized node = node
  /\ forall es, exists flag,
       convertOptionalChaining smartParenthesized node es
       = Some (None, mkState flag (cleaned es)).

(** A document is converged when every attempt [transformAST] makes on it is
    quiet. *)
Definition converged (e : expr) : Prop :=
  forall path,
    path ∈ (treeFind isConditionalExpression (mkDoc e [])
            ++ treeFind isAndOrExpression (mkDoc e []))%list ->
    quietAttempt (treeNodeOf (mkDoc e []) path).

End Convergence.

Section QuietDocument.

Context {Doc Path : Type}.
Variable findConditional : Doc -> list Path.
Variable findLogical : Doc -> list Path.
Variable nodeOf : Doc -> Path -> expr.
Variable afterAttempt : Doc -> Path -> expr -> list string -> Doc.
Variable smartParenthesized : expr -> expr.

(** The same for the documents of any host: every attempt is quiet, and the
    host has nothing to do after an attempt that wrote nothing and handed no
    name to the Scope Cleaner. *)
Definition quietDocument (doc : Doc) : Prop :=
  forall path,
    path ∈ (findConditional doc ++ findLogical doc)%list ->
    quietAttempt smartParenthesized (nodeOf doc path)
    /\ afterAttempt doc path (nodeOf doc path) [] = doc.

End QuietDocument.

(** [c || c?.f.call?.(c, 1)] *)
Definition callOfCallOnce : expr :=
  let c := Identifier "c" in
  LogicalExpression "||" c
    (OptionalCallExpression (dot (optDot c "f") "call") [c; NumericLiteral 1]).

(** [c || c?.f?.(1)] *)
Definition callOfCallTwice : expr :=
  let c := Identifier "c" in
  LogicalExpression "||" c (OptionalCallExpression (optDot c "f") [NumericLiteral 1]).

(** [deepNesting] with its five outer guards turned into optional chains. *)
Definition deepNestingPartial : expr :=
  optionalCallOf "a" (optionalCallOf "b" (optionalCallOf "c" (optionalCallOf "d"
    (optionalCallOf "e" (guardedCall "g" (Identifier "z")))))).

Definition deepNestingFull : expr :=
  optionalCallOf "a" (optionalCallOf "b" (optionalCallOf "c" (optionalCallOf "d"
    (optionalCallOf "e" (optionalCallOf "g" (Identifier "z")))))).

(** * Properties *)

(** ** The converter *)

Lemma bind_Some {A B} (m : M A) (k : A -> M B) s b s' :
  bind m k s = Some (b, s') ->
  exists a s1, m s = Some (a, s1) /\ k a s1 = Some (b, s').
Proof.
  unfold bind. destruct (m s) as [[a s1]|] eqn:E; [|discriminate].
  intros H. exists a, s1. split; [reflexivity|exact H].
Qed.

(** The engine never touches the flag before the converter has reset it, so
    an attempt does not depend on the flag it starts with. *)
Lemma convertOptionalChaining_resets sp e b1 b2 names :
  convertOptionalChaining sp e (mkState b1 names)
  = convertOptionalChaining sp e (mkState b2 names).
Proof. reflexivity. Qed.

(** C1, as stated, fails: on [a !== null && a !== undefined && a.b !== null &&
    a.b !== undefined ? a.b.c : undefined] the converter does not return
    [a?.b?.c]; it returns null. *)
Lemma notNullConditional_not_converted :
  convertOptionalChaining parenthesizeLoose notNullConditional emptyState
    = Some (None, emptyState)
  /\ ~ (exists s', convertOptionalChaining parenthesizeLoose notNullConditional
                    emptyState = Some (Some a_opt_b_opt_c, s')).
Proof.
  assert (H : convertOptionalChaining parenthesizeLoose notNullConditional emptyState
              = Some (None, emptyState)) by reflexivity.
  split; [exact H|]. intros [s' Hs]. rewrite H in Hs. discriminate.
Qed.

(** C1 (amended): the logical form [a !== null && a !== undefined && a.b !==
    null && a.b !== undefined && a.b.c] is replaced by [a?.b?.c], the tree
    being negated and the result negated back, and so is the conditional
    whose test is the null form, [a === null || a === undefined || a.b ===
    null || a.b === undefined ? undefined : a.b.c]; on the conditional with
    the not-null test the converter returns null, the negated tree having
    [!undefined] as its true branch. *)
Theorem notNull_chain_converted (sp : expr -> expr) (s : EngineState) :
  convertOptionalChaining sp notNullLogical s
    = Some (Some a_opt_b_opt_c, mkState true (cleaned s))
  /\ convertOptionalChaining sp nullConditional s
    = Some (Some a_opt_b_opt_c, mkState true (cleaned s))
  /\ convertOptionalChaining sp notNullConditional s
    = Some (None, mkState false (cleaned s))
  /\ trueBranch (negateDecisionTree
       (makeDecisionTreeWithConditionSplitting (makeDecisionTree notNullConditional)))
     = Some (Node (UnaryExpression "!" undefinedId true) None None).
Proof. repeat split; reflexivity. Qed.

Lemma replacement_sets_flag sp e s s' result :
  convertOptionalChaining sp e s = Some (result, s') ->
  is_Some result -> transformed s' = true.
Proof.
  intros H. unfold convertOptionalChaining in H.
  apply bind_Some in H as (u & s1 & _ & H).
  apply bind_Some in H as (r & s2 & _ & H).
  destruct r as [r|]; [|injection H as <- <-; intros [? ?]; discriminate].
  destruct (negb (transformed s2) || areNodesEqual e r) eqn:E.
  - injection H as <- <-. intros [? ?]; discriminate.
  - injection H as <- <-. intros _.
    apply orb_false_iff in E as [E _].
    apply negb_false_iff in E. exact E.
Qed.

(** X1: whatever the flag was before the attempt, the converter returns a
    replacement only when the flag has been set during the attempt; with the
    flag false at the end it returns null. *)
Theorem replacement_needs_flag (sp : expr -> expr) (e : expr)
    (s s' : EngineState) (result : option expr)
    (H : convertOptionalChaining sp e s = Some (result, s')) :
  (is_Some result -> transformed s' = true)
  /\ (transformed s' = false -> result = None)
  /\ convertOptionalChaining sp e (mkState true (cleaned s)) = Some (result, s')
  /\ convertOptionalChaining sp e (mkState false (cleaned s)) = Some (result, s').
Proof.
  pose proof (replacement_sets_flag _ _ _ _ _ H) as Hflag.
  split; [exact Hflag|]. split; [|split].
  - intros Hf. destruct result as [r|]; [|reflexivity].
    rewrite Hflag in Hf by eauto. discriminate.
  - rewrite <- H. destruct s. reflexivity.
  - rewrite <- H. destruct s. reflexivity.
Qed.

Lemma replacement_needs_flag_witness :
  convertOptionalChaining parenthesizeLoose notNullLogical emptyState
  = Some (Some a_opt_b_opt_c, mkState true [])
  /\ (is_Some (Some a_opt_b_opt_c) -> transformed (mkState true []) = true).
Proof.
  split; [reflexivity|].
  apply (replacement_needs_flag parenthesizeLoose notNullLogical emptyState
           (mkState true []) (Some a_opt_b_opt_c)).
  reflexivity.
Defined.

(** The flag the converter ends with is the one set during the attempt,
    whatever it was before. *)
Lemma convertOptionalChaining_own_flag sp e s :
  convertOptionalChaining sp e (mkState true (cleaned s))
  = convertOptionalChaining sp e s.
Proof. destruct s. reflexivity. Qed.

(** On [a ? b : c] the flag stays false and the result is null. *)
Lemma plainConditional_rejected sp s :
  convertOptionalChaining sp plainConditional s
  = Some (None, mkState false (cleaned s)).
Proof. reflexivity. Qed.

(** C3: on [a || (b = c.d).e()] no optional substitution takes place, the
    flag stays false and the converter returns null; yet the attempt has
    handed [b] to the Scope Cleaner and has assigned [c.d] to the object of
    the callee (line 214, the rewriter returning the target of the
    assignment on lines 340-341), so that the node reads [a || c.d.e()] when
    [transformAST] is done: a node whose candidate was rejected is not left
    unchanged. *)
Theorem unflagged_attempt_writes_node :
  convertOptionalChaining parenthesizeLoose assignedReceiver emptyState
  = Some (None, mkState false ["b"])
  /\ convertInPlace parenthesizeLoose assignedReceiver = assignedReceiverWritten
  /\ resultTree (transformTree parenthesizeLoose 6 assignedReceiver)
     = Some assignedReceiverWritten
  /\ assignedReceiverWritten <> assignedReceiver.
Proof.
  split; [reflexivity|]. split; [reflexivity|].
  split; [vm_compute; reflexivity|]. discriminate.
Qed.

(** ** The rewriter on [apply] calls *)

Lemma mapRewrite_fillHoles sp token target elements :
  mapRewrite (rewriteElement sp token target) elements
  = mapRewrite (rewriteArg sp token target) (fillHoles elements).
Proof.
  induction elements as [|[e|] elements IH]; simpl.
  - reflexivity.
  - rewrite IH. reflexivity.
  - rewrite IH. reflexivity.
Qed.

Lemma mapRewrite_expand sp token target arg :
  isSpreadElement arg = false ->
  match arg with
  | ArrayExpression elements => mapRewrite (rewriteElement sp token target) elements
  | _ => Some ([SpreadElement arg], false)
  end = mapRewrite (rewriteArg sp token target) (expandApplyArgument arg).
Proof.
  intros H. destruct arg; try reflexivity.
  apply mapRewrite_fillHoles.
Qed.

(** Lines 237-252 as one equation. *)
Lemma applyCall_on_member sp token target optCall optCallee receiver computed
    first arg rest :
  isMemberExpression receiver = true ->
  applyOptionalChaining sp token target
    (applyCall optCall optCallee receiver computed first arg rest)
  = if isSpreadElement arg
    then Some (applyCall optCall optCallee receiver computed first arg rest, false)
    else
      match applyOptionalChaining sp token target receiver,
            mapRewrite (rewriteArg sp token target) (expandApplyArgument arg) with
      | Some (callee', _), Some (args', _) =>
          Some (OptionalCallExpression callee' args', true)
      | _, _ => None
      end.
Proof.
  intros Hm.
  destruct (isSpreadElement arg) eqn:Hs.
  - destruct arg; try discriminate.
    destruct optCall, optCallee, receiver; try discriminate; reflexivity.
  - rewrite <- (mapRewrite_expand sp token target arg Hs).
    destruct optCall, optCallee, receiver; try discriminate;
      destruct arg; try discriminate; reflexivity.
Qed.

Ltac head_reduce :=
  match goal with
  | |- ?l = _ => let l' := eval hnf in l in change l with l'
  end.

Local Opaque areNodesEqual isSpreadElement.

(** Lines 283-298 as one equation, for an identifier as receiver. *)
Lemma applyCall_on_token sp token target optCall optCallee name computed
    first arg rest :
  areNodesEqual (Identifier name) token = true ->
  applyOptionalChaining sp token target
    (applyCall optCall optCallee (Identifier name) computed first arg rest)
  = if isSpreadElement arg
    then Some (applyCall optCall optCallee (Identifier name) computed first arg rest,
               false)
    else
      match mapRewrite (rewriteArg sp token target) (expandApplyArgument arg),
            target with
      | Some (args', _), Some t => Some (OptionalCallExpression t args', true)
      | _, _ => None
      end.
Proof.
  intros Heq.
  destruct (isSpreadElement arg) eqn:Hs.
  - destruct optCall, optCallee;
      head_reduce; rewrite Heq; head_reduce; rewrite Hs; reflexivity.
  - rewrite <- (mapRewrite_expand sp token target arg Hs).
    destruct optCall, optCallee;
      head_reduce; rewrite Heq; head_reduce; rewrite Hs; reflexivity.
Qed.

Local Transparent areNodesEqual isSpreadElement.

(** [args.map] keeps the length and the order of the arguments. *)
Lemma mapRewrite_lookup {A} (f : A -> option (expr * bool)) l l' b :
  mapRewrite f l = Some (l', b) ->
  length l' = length l
  /\ forall i x, l !! i = Some x ->
       exists x' bx, f x = Some (x', bx) /\ l' !! i = Some x'.
Proof.
  revert l' b. induction l as [|a l IH]; intros l' b; simpl.
  - intros [= <- <-]. split; [reflexivity|]. intros i x Hi. discriminate.
  - destruct (f a) as [[a' ba]|] eqn:Ea; [|discriminate].
    destruct (mapRewrite f l) as [[l'' b'']|] eqn:El; [|discriminate].
    intros [= <- <-]. destruct (IH _ _ eq_refl) as [Hlen Hnth].
    split; [simpl; congruence|].
    intros [|i] x Hi; simpl in *.
    + injection Hi as <-. eauto.
    + apply Hnth, Hi.
Qed.

Lemma fillHoles_lookup elements i :
  fillHoles elements !! i
  = (fun element => default (Identifier "undefined") element) <$> elements !! i.
Proof. unfold fillHoles. apply list_lookup_fmap. Qed.

(** C4: a call [obj.m.apply(first, arg)] whose first argument equals the token
    becomes the optional call of the rewritten [obj.m] on the rewritten
    arguments, an array literal being expanded element by element and any
    other second argument being spread; with a spread element as second
    argument the node comes back as it is and the flag is not set.  (The
    source does not look at the first argument on this path.) *)
Theorem apply_call_rewritten (sp : expr -> expr) (token : expr)
    (target : option expr) (optCall optCallee : bool) (receiver : expr)
    (computed : bool) (first arg : expr) (rest : list expr)
    (Hreceiver : isMemberExpression receiver = true)
    (Hfirst : areNodesEqual first token = true) :
  let node := applyCall optCall optCallee receiver computed first arg rest in
  (isSpreadElement arg = true ->
     applyOptionalChaining sp token target node = Some (node, false))
  /\ (isSpreadElement arg = false ->
      forall callee' b1 args' b2,
        applyOptionalChaining sp token target receiver = Some (callee', b1) ->
        mapRewrite (rewriteArg sp token target) (expandApplyArgument arg)
          = Some (args', b2) ->
        applyOptionalChaining sp token target node
          = Some (OptionalCallExpression callee' args', true))
  /\ (forall elements, arg = ArrayExpression elements ->
        expandApplyArgument arg = fillHoles elements)
  /\ (isSpreadElement arg = false ->
      (forall elements, arg <> ArrayExpression elements) ->
      mapRewrite (rewriteArg sp token target) (expandApplyArgument arg)
        = Some ([SpreadElement arg], false)).
Proof.
  intros node. subst node. split; [|split; [|split]].
  - intros Hs. rewrite applyCall_on_member by exact Hreceiver.
    rewrite Hs. reflexivity.
  - intros Hs callee' b1 args' b2 Hc Ha.
    rewrite applyCall_on_member by exact Hreceiver.
    rewrite Hs, Hc, Ha. reflexivity.
  - intros elements ->. reflexivity.
  - intros Hs Hna. destruct arg; try reflexivity; try discriminate.
    exfalso. eapply Hna. reflexivity.
Qed.

Lemma apply_call_rewritten_witness :
  applyOptionalChaining parenthesizeLoose (Identifier "t") None applyWithHole
  = Some (OptionalCallExpression (dot (Identifier "o") "m")
            [Identifier "x"; undefinedId; Identifier "y"], true).
Proof.
  refine (proj1 (proj2 (apply_call_rewritten parenthesizeLoose (Identifier "t") None
            false false (dot (Identifier "o") "m") false (Identifier "t")
            (ArrayExpression [Some (Identifier "x"); None; Some (Identifier "y")]) []
            _ _)) _ _ false _ false _ _).
  - reflexivity.
  - reflexivity.
  - reflexivity.
  - reflexivity.
  - reflexivity.
Defined.

(** C10: the hole of [f.m.apply(x, [ , ])] is filled with the identifier
    [undefined] (lines 242 and 288) and the filled-in list is then mapped
    through the rewriter like any list of arguments.  In [null == (undefined =
    v) ? void 0 : f.m.apply(x, [ , ])] the token is the identifier
    [undefined] and the target is [v]: the identifier case of the rewriter
    (line 350) takes the filler for an occurrence of the token, and the
    optional call has [v], not [undefined], at the position of the hole. *)
Theorem hole_replaced_by_target :
  applyOptionalChaining parenthesizeLoose undefinedId (Some (Identifier "v"))
    applyOnlyHole
  = Some (OptionalCallExpression (dot (Identifier "f") "m") [Identifier "v"], true)
  /\ [Identifier "v"] !! 0%nat <> Some undefinedId
  /\ convertOptionalChaining parenthesizeLoose undefinedAsTemporary emptyState
     = Some (Some (OptionalCallExpression (dot (Identifier "f") "m") [Identifier "v"]),
             mkState true ["undefined"]).
Proof. repeat split; try reflexivity. discriminate. Qed.

(** Lines 241-248 and 287-294: the optional call built from the array literal
    of an [apply] call has one argument per element, in the same order; every
    element is mapped through the rewriter, a hole as the identifier
    [undefined].  With a token other than the identifier [undefined], or
    without a target, the hole comes out as the identifier [undefined]. *)
Lemma holes_filled_with_undefined (sp : expr -> expr) (token : expr)
    (target : option expr) (optCall optCallee : bool) (receiver : expr)
    (computed : bool) (first : expr) (elements : list (option expr))
    (rest : list expr) (result : expr) (b : bool)
    (Hshape : isMemberExpression receiver = true
              \/ (isIdentifier receiver = true
                  /\ areNodesEqual receiver token = true))
    (H : applyOptionalChaining sp token target
           (applyCall optCall optCallee receiver computed first
              (ArrayExpression elements) rest) = Some (result, b)) :
  exists callee' args',
    result = OptionalCallExpression callee' args'
    /\ length args' = length elements
    /\ (forall i, elements !! i = Some None ->
          args' !! i = Some (rewriteIdentifier sp token target "undefined"))
    /\ (forall i e, elements !! i = Some (Some e) ->
          exists e' be, rewriteArg sp token target e = Some (e', be)
                        /\ args' !! i = Some e')
    /\ (target = None \/ areNodesEqual undefinedId token = false ->
        rewriteIdentifier sp token target "undefined" = undefinedId).
Proof.
  assert (Hargs : forall args' b2,
    mapRewrite (rewriteArg sp token target) (fillHoles elements) = Some (args', b2) ->
    length args' = length elements
    /\ (forall i, elements !! i = Some None ->
          args' !! i = Some (rewriteIdentifier sp token target "undefined"))
    /\ (forall i e, elements !! i = Some (Some e) ->
          exists e' be, rewriteArg sp token target e = Some (e', be)
                        /\ args' !! i = Some e')).
  { intros args' b2 Hm. apply mapRewrite_lookup in Hm as [Hlen Hnth].
    unfold fillHoles in Hlen. rewrite length_map in Hlen.
    split; [exact Hlen|]. split.
    - intros i Hi. destruct (Hnth i undefinedId) as (x' & bx & Hx & Hl).
      { rewrite fillHoles_lookup, Hi. reflexivity. }
      rewrite Hl. f_equal. cbn in Hx. congruence.
    - intros i e Hi. apply (Hnth i e). rewrite fillHoles_lookup, Hi. reflexivity. }
  assert (Hund : target = None \/ areNodesEqual undefinedId token = false ->
                 rewriteIdentifier sp token target "undefined" = undefinedId).
  { unfold rewriteIdentifier, undefinedId. intros [-> | ->]; [reflexivity|].
    destruct target; reflexivity. }
  destruct (isMemberExpression receiver) eqn:Hm.
  - rewrite applyCall_on_member in H by exact Hm. cbn [isSpreadElement] in H.
    destruct (applyOptionalChaining sp token target receiver) as [[callee' b1]|];
      [|discriminate].
    cbn [expandApplyArgument] in H.
    destruct (mapRewrite _ (fillHoles elements)) as [[args' b2]|] eqn:Ea;
      [|discriminate].
    injection H as <- <-. exists callee', args'.
    destruct (Hargs _ _ eq_refl) as (? & ? & ?). auto.
  - destruct Hshape as [?|[Hid Heq]]; [discriminate|].
    destruct receiver; try discriminate Hid.
    rewrite applyCall_on_token in H by assumption. cbn [isSpreadElement] in H.
    cbn [expandApplyArgument] in H.
    destruct (mapRewrite _ (fillHoles elements)) as [[args' b2]|] eqn:Ea;
      [|discriminate].
    destruct target as [t|]; [|discriminate].
    injection H as <- <-. exists t, args'.
    destruct (Hargs _ _ eq_refl) as (? & ? & ?). auto.
Qed.

(** X7: when the rewriter expands the array literal of an [apply] call and
    the token is not the identifier [undefined], or no target is given, the
    optional call has one argument per element, in the same order, with the
    identifier [undefined] at the position of every hole and the rewriting of
    the element at every other position. *)
Theorem holes_undefined_off_token (sp : expr -> expr) (token : expr)
    (target : option expr) (optCall optCallee : bool) (receiver : expr)
    (computed : bool) (first : expr) (elements : list (option expr))
    (rest : list expr) (result : expr) (b : bool)
    (Hshape : isMemberExpression receiver = true
              \/ (isIdentifier receiver = true
                  /\ areNodesEqual receiver token = true))
    (Htoken : target = None \/ areNodesEqual undefinedId token = false)
    (H : applyOptionalChaining sp token target
           (applyCall optCall optCallee receiver computed first
              (ArrayExpression elements) rest) = Some (result, b)) :
  exists callee' args',
    result = OptionalCallExpression callee' args'
    /\ length args' = length elements
    /\ (forall i, elements !! i = Some None -> args' !! i = Some undefinedId)
    /\ (forall i e, elements !! i = Some (Some e) ->
          exists e' be, rewriteArg sp token target e = Some (e', be)
                        /\ args' !! i = Some e').
Proof.
  destruct (holes_filled_with_undefined sp token target optCall optCallee receiver
              computed first elements rest result b Hshape H)
    as (callee' & args' & Hr & Hlen & Hholes & Hrest & Hund).
  exists callee', args'. rewrite (Hund Htoken) in Hholes. auto.
Qed.

Lemma holes_undefined_off_token_witness :
  exists callee' args',
    OptionalCallExpression (dot (Identifier "o") "m")
      [Identifier "x"; undefinedId; Identifier "y"]
    = OptionalCallExpression callee' args'
    /\ length args' = 3%nat
    /\ args' !! 1%nat = Some undefinedId.
Proof.
  destruct (holes_undefined_off_token parenthesizeLoose (Identifier "t") None
              false false (dot (Identifier "o") "m") false (Identifier "t")
              [Some (Identifier "x"); None; Some (Identifier "y")] []
              (OptionalCallExpression (dot (Identifier "o") "m")
                 [Identifier "x"; undefinedId; Identifier "y"]) true
              (or_introl eq_refl) (or_introl eq_refl) eq_refl)
    as (callee' & args' & Hr & Hlen & Hholes & _).
  exists callee', args'. split; [exact Hr|]. split; [exact Hlen|].
  apply Hholes. reflexivity.
Defined.

(** ** The rewriter on the other idioms *)

Local Opaque areNodesEqual isSpreadElement.

(** X2: a member access on the token, [token.p] or [token?.p], becomes the
    optional access [target?.p] (the token itself when no target is given,
    the target as [smartParenthesized] returns it otherwise), and the flag is
    set. *)
Theorem member_on_token (sp : expr -> expr) (token : expr) (target : option expr)
    (optional : bool) (object property : expr) (computed : bool)
    (Hobject : areNodesEqual object token = true) :
  applyOptionalChaining sp token target (memberNode optional object property computed)
  = Some (OptionalMemberExpression
            (match target with Some t => sp t | None => object end)
            property computed, true).
Proof. destruct optional; head_reduce; rewrite Hobject; reflexivity. Qed.

(** X3: [obj.m.call(token, ...args)], with [obj.m] a member expression and
    the first argument equal to the token, becomes the optional call of the
    rewritten [obj.m] on the rewritten arguments after the first, and the
    flag is set; a sub-rewrite that throws is propagated. *)
Theorem callIdiom_rewritten (sp : expr -> expr) (token : expr)
    (target : option expr) (optCall optCallee : bool) (receiver : expr)
    (computed : bool) (first : expr) (rest : list expr)
    (Hreceiver : isMemberExpression receiver = true)
    (Hfirst : areNodesEqual first token = true) :
  applyOptionalChaining sp token target
    (methodCall optCall optCallee receiver "call" computed (first :: rest))
  = match applyOptionalChaining sp token target receiver,
          mapRewrite (rewriteArg sp token target) rest with
    | Some (callee', _), Some (args', _) =>
        Some (OptionalCallExpression callee' args', true)
    | _, _ => None
    end.
Proof.
  destruct optCall, optCallee, receiver; try discriminate Hreceiver;
    (head_reduce; unfold areNodesEqual_opt, nth_arg; cbn [lookup list_lookup];
     rewrite Hfirst; reflexivity).
Qed.

(** X4: [obj.m.bind(token)], with the first argument equal to the token,
    becomes the member access of the rewritten [m] on the rewritten [obj]:
    optional, with the flag set, unless [obj] is an assignment, in which
    case the access is a plain one and the flag is left to the
    sub-rewrites. *)
Theorem bindIdiom_rewritten (sp : expr -> expr) (token : expr)
    (target : option expr) (optCall optCallee optReceiver : bool)
    (object property : expr) (rcomputed computed : bool) (first : expr)
    (rest : list expr)
    (Hfirst : areNodesEqual first token = true) :
  applyOptionalChaining sp token target
    (methodCall optCall optCallee (memberNode optReceiver object property rcomputed)
       "bind" computed (first :: rest))
  = match applyOptionalChaining sp token target object,
          applyOptionalChaining sp token target property with
    | Some (object', b1), Some (property', b2) =>
        Some (memberNode (negb (isAssignmentExpression object)) object' property'
                rcomputed,
              negb (isAssignmentExpression object) || b1 || b2)
    | _, _ => None
    end.
Proof.
  destruct optCall, optCallee, optReceiver;
    (head_reduce; unfold areNodesEqual_opt, nth_arg; cbn [lookup list_lookup];
     rewrite Hfirst; reflexivity).
Qed.

(** X5: the indirect call [(0, token)(...args)] becomes the optional call of
    [(0, target)], as [smartParenthesized] returns it, on the rewritten
    arguments, and the flag is set. *)
Theorem indirect_call_rewritten (sp : expr -> expr) (token : expr)
    (target : option expr) (optCall : bool) (e : expr) (args : list expr)
    (Hcallee : areNodesEqual e token = true) :
  applyOptionalChaining sp token target
    (callNode optCall (SequenceExpression [NumericLiteral 0; e]) args)
  = match mapRewrite (rewriteArg sp token target) args with
    | Some (args', _) =>
        Some (OptionalCallExpression
                (sp (SequenceExpression [NumericLiteral 0; default e target]))
                args', true)
    | None => None
    end.
Proof.
  destruct optCall, target; head_reduce; unfold isIndirectCallee;
    rewrite Hcallee; reflexivity.
Qed.

(** X6: a call of the token itself, [token(...args)], becomes the optional
    call of the target on the arguments as they are: they are not handed to
    the rewriter. *)
Theorem direct_call_rewritten (sp : expr -> expr) (token : expr)
    (target : option expr) (optCall : bool) (name : string) (args : list expr)
    (Hcallee : areNodesEqual (Identifier name) token = true) :
  applyOptionalChaining sp token target (callNode optCall (Identifier name) args)
  = Some (OptionalCallExpression (default (Identifier name) target) args, true).
Proof. destruct optCall; head_reduce; rewrite Hcallee; reflexivity. Qed.

Local Transparent areNodesEqual isSpreadElement.

Lemma member_on_token_witness :
  applyOptionalChaining parenthesizeLoose (Identifier "t")
    (Some (dot (Identifier "a") "b")) (dot (Identifier "t") "c")
  = Some (optDot (dot (Identifier "a") "b") "c", true).
Proof.
  apply (member_on_token parenthesizeLoose (Identifier "t")
           (Some (dot (Identifier "a") "b")) false (Identifier "t")
           (Identifier "c") false).
  reflexivity.
Defined.

Lemma callIdiom_rewritten_witness :
  applyOptionalChaining parenthesizeLoose (Identifier "t") None
    (methodCall false false (dot (Identifier "o") "m") "call" false
       [Identifier "t"; Identifier "x"])
  = Some (OptionalCallExpression (dot (Identifier "o") "m") [Identifier "x"], true).
Proof.
  rewrite (callIdiom_rewritten parenthesizeLoose (Identifier "t") None false false
             (dot (Identifier "o") "m") false (Identifier "t") [Identifier "x"]
             eq_refl eq_refl).
  reflexivity.
Defined.

Lemma bindIdiom_rewritten_witness :
  applyOptionalChaining parenthesizeLoose (Identifier "t") None
    (methodCall false false (dot (Identifier "t") "m") "bind" false [Identifier "t"])
  = Some (optDot (Identifier "t") "m", true).
Proof.
  etransitivity;
    [apply (bindIdiom_rewritten parenthesizeLoose (Identifier "t") None false false
              false (Identifier "t") (Identifier "m") false false (Identifier "t") []
              eq_refl)|].
  reflexivity.
Defined.

Lemma indirect_call_rewritten_witness :
  applyOptionalChaining parenthesizeLoose (Identifier "t")
    (Some (dot (Identifier "a") "b"))
    (CallExpression (SequenceExpression [NumericLiteral 0; Identifier "t"])
       [Identifier "x"])
  = Some (OptionalCallExpression
            (ParenthesizedExpression
               (SequenceExpression [NumericLiteral 0; dot (Identifier "a") "b"]))
            [Identifier "x"], true).
Proof.
  etransitivity;
    [apply (indirect_call_rewritten parenthesizeLoose (Identifier "t")
              (Some (dot (Identifier "a") "b")) false (Identifier "t")
              [Identifier "x"] eq_refl)|].
  reflexivity.
Defined.

Lemma direct_call_rewritten_witness :
  applyOptionalChaining parenthesizeLoose (Identifier "t")
    (Some (dot (Identifier "a") "b"))
    (CallExpression (Identifier "t") [dot (Identifier "t") "x"])
  = Some (OptionalCallExpression (dot (Identifier "a") "b")
            [dot (Identifier "t") "x"], true).
Proof.
  apply (direct_call_rewritten parenthesizeLoose (Identifier "t")
           (Some (dot (Identifier "a") "b")) false "t" [dot (Identifier "t") "x"]).
  reflexivity.
Defined.

(** ** The chain constructor *)

Lemma foldAssignments_cleaned sp all acc s r s1 :
  foldAssignments sp all acc s = Some (r, s1) -> cleaned s1 = cleaned s.
Proof.
  revert acc s. induction all as [|a all IH]; intros acc s; simpl.
  - intros [= <- <-]. reflexivity.
  - destruct a; try apply IH.
    intros H. apply bind_Some in H as (acc' & s2 & Hr & H).
    apply IH in H. rewrite H. unfold liftRewrite in Hr.
    destruct (applyOptionalChaining _ _ _ _) as [[e b]|]; [|discriminate].
    injection Hr as <- <-. reflexivity.
Qed.

Lemma cleanAssignments_names all s :
  cleanAssignments all s
  = Some (tt, mkState (transformed s) (cleaned s ++ assignedNames all)).
Proof.
  revert s. induction all as [|a all IH]; intros s; simpl.
  - rewrite app_nil_r. destruct s; reflexivity.
  - destruct a; try apply IH.
    destruct a1; try apply IH.
    unfold bind, removeDeclarationIfUnused. rewrite IH. simpl.
    rewrite <- app_assoc. reflexivity.
Qed.

Lemma foldAndClean_result sp all init s :
  foldAndClean sp all init s
  = match foldAssignments sp all init s with
    | Some (r, s1) =>
        Some (Some r, mkState (transformed s1) (cleaned s ++ assignedNames all))
    | None => None
    end.
Proof.
  unfold foldAndClean, bind.
  destruct (foldAssignments sp all init s) as [[r s1]|] eqn:E; [|reflexivity].
  rewrite cleanAssignments_names. unfold ret.
  rewrite (foldAssignments_cleaned _ _ _ _ _ _ E). reflexivity.
Qed.

(** Flag 1 as one equation. *)
Lemma constructOptionalChaining_flag1 sp tree s :
  constructOptionalChaining sp tree Flag1 s
  = if acceptsTrueBranch tree
    then match falseBranch tree with
         | Some fb =>
             if isUndefinedBinary (condition tree)
             then constructOptionalChaining sp fb Flag0 s
             else Some (None, s)
         | None => Some (None, s)
         end
    else Some (None, s).
Proof.
  destruct tree as [c tb [fb|]]; cbn [constructOptionalChaining falseBranch condition];
    destruct (acceptsTrueBranch _); cbn [negb]; try reflexivity.
  destruct (isUndefinedBinary c); reflexivity.
Qed.



(** C6, as stated, fails: a leaf reached with flag 1 is not a success, the
    constructor returns null there; and with flag 0 a node without false
    branch whose true branch is not falsy, as for [a && b], returns null as
    well. *)
Lemma leaf_is_not_always_success :
  constructOptionalChaining parenthesizeLoose (leaf (Identifier "x")) Flag1 emptyState
    = Some (None, emptyState)
  /\ constructOptionalChaining parenthesizeLoose
       (Node (Identifier "a") (Some (leaf (Identifier "b"))) None) Flag0 emptyState
    = Some (None, emptyState)
  /\ ~ (exists r s',
          constructOptionalChaining parenthesizeLoose (leaf (Identifier "x")) Flag1
            emptyState = Some (Some r, s')).
Proof.
  split; [reflexivity|]. split; [reflexivity|].
  intros (r & s' & H). discriminate H.
Qed.

(** C6 (amended): at a node with no false branch whose true branch passes
    the opening check, flag 0 succeeds: the assignments to plain identifiers
    embedded in the condition, and the condition itself when it is one, are
    folded into the condition by the rewriter, and each assigned name is
    handed to the Scope Cleaner, in that order; it throws only if the
    rewriter does.  With flag 1 the same node returns null. *)
Theorem leaf_folds_assignments (sp : expr -> expr) (c : expr)
    (tb : option DecisionTree) (s : EngineState)
    (Hacc : acceptsTrueBranch (Node c tb None) = true) :
  constructOptionalChaining sp (Node c tb None) Flag0 s
  = match foldAssignments sp (leafAssignments c) c s with
    | Some (r, s1) =>
        Some (Some r,
              mkState (transformed s1)
                (cleaned s ++ assignedNames (leafAssignments c)))
    | None => None
    end
  /\ (leafAssignments c = [] ->
      constructOptionalChaining sp (Node c tb None) Flag0 s = Some (Some c, s))
  /\ constructOptionalChaining sp (Node c tb None) Flag1 s = Some (None, s).
Proof.
  assert (H0 : constructOptionalChaining sp (Node c tb None) Flag0 s
               = foldAndClean sp (leafAssignments c) c s).
  { cbn [constructOptionalChaining]. rewrite Hacc. reflexivity. }
  split; [|split].
  - rewrite H0. apply foldAndClean_result.
  - intros Hnil. rewrite H0, foldAndClean_result, Hnil. cbn.
    rewrite app_nil_r. destruct s; reflexivity.
  - rewrite constructOptionalChaining_flag1, Hacc. reflexivity.
Qed.

Lemma leaf_folds_assignments_witness :
  constructOptionalChaining parenthesizeLoose (leaf leafWithTemporary) Flag0 emptyState
  = Some (Some (dot (dot (Identifier "x") "y") "z"), mkState false ["t"]).
Proof.
  unfold leaf.
  rewrite (proj1 (leaf_folds_assignments parenthesizeLoose leafWithTemporary None
                    emptyState eq_refl)).
  reflexivity.
Defined.

(** X8: [getDeepestFalseBranch] ends at a node without a false branch, is
    the identity on such a node, and so reaches its result in one
    application. *)
Theorem getDeepestFalseBranch_leaf (tree : DecisionTree) :
  falseBranch (getDeepestFalseBranch tree) = None
  /\ getDeepestFalseBranch (getDeepestFalseBranch tree) = getDeepestFalseBranch tree
  /\ (falseBranch tree = None -> getDeepestFalseBranch tree = tree).
Proof.
  split; [|split].
  - revert tree. fix IH 1. intros [c tb [fb|]]; simpl; [apply IH|reflexivity].
  - revert tree. fix IH 1. intros [c tb [fb|]]; simpl; [apply IH|reflexivity].
  - destruct tree as [c tb [fb|]]; simpl; [discriminate|reflexivity].
Qed.

(** ** The nullish-coalescing analyzer *)

Lemma analyzeCondition_foreign toSource st c :
  isNullishBinary c = false -> analyzeCondition toSource st c = st.
Proof.
  intros H. destruct c; try reflexivity.
  cbn in H. cbn [analyzeCondition]. rewrite H. reflexivity.
Qed.

(** C9: a sub-condition of the OR-chain that is not a binary null or
    undefined comparison leaves the state of [analyzeConditions] untouched, so
    the analysis of a chain containing it is that of the chain without it; on
    [null !== (t = null == r || x > 0 || null === (n = r.app_info) || void 0
    === n ? void 0 : n.app_name) && void 0 !== t ? t : "game"] the analyzer
    returns [r?.app_info?.app_name ?? "game"], the condition [x > 0] being
    dropped. *)
Theorem foreign_condition_skipped (toSource : expr -> string) (c : expr)
    (before after : list expr)
    (H : isNullishBinary c = false) :
  (forall st, analyzeCondition toSource st c = st)
  /\ analyzeConditions toSource (before ++ c :: after)
     = analyzeConditions toSource (before ++ after)
  /\ analyzeOptionalChain toSource 4
       (desugaredCoalescing "t" guardsWithForeign "n" "app_name" (StringLiteral "game"))
       true
     = Some (Some (LogicalExpression "??"
                     (optDot (optDot (Identifier "r") "app_info") "app_name")
                     (StringLiteral "game")),
             ["r"; "n"]).
Proof.
  split; [|split].
  - intros st. apply analyzeCondition_foreign, H.
  - unfold analyzeConditions. rewrite !fold_left_app. cbn [fold_left].
    rewrite analyzeCondition_foreign by exact H. reflexivity.
  - reflexivity.
Qed.

Lemma foreign_condition_skipped_witness :
  analyzeConditions (fun _ => "")
    ([BinaryExpression "==" NullLiteral (Identifier "r")]
       ++ BinaryExpression ">" (Identifier "x") (NumericLiteral 0) :: [])
  = (Some "r", [("r", mkVar "r" None (Identifier "r") [])]).
Proof.
  rewrite (proj1 (proj2 (foreign_condition_skipped (fun _ => "")
             (BinaryExpression ">" (Identifier "x") (NumericLiteral 0))
             [BinaryExpression "==" NullLiteral (Identifier "r")] [] eq_refl))).
  reflexivity.
Defined.

Lemma mapGet_app_notin (m1 m2 : VarMap) k :
  k ∉ map fst m1 -> mapGet (m1 ++ m2)%list k = mapGet m2 k.
Proof.
  induction m1 as [|[k' v] m1 IH]; simpl; [reflexivity|].
  intros Hn. apply not_elem_of_cons in Hn as [Hne Hn].
  destruct (String.eqb_spec k' k); [congruence|]. apply IH, Hn.
Qed.

Lemma mapSet_fresh (m : VarMap) k v :
  k ∉ map fst m -> mapSet m k v = (m ++ [(k, v)])%list.
Proof.
  induction m as [|[k' v'] m IH]; simpl; [reflexivity|].
  intros Hn. apply not_elem_of_cons in Hn as [Hne Hn].
  destruct (String.eqb_spec k' k); [congruence|]. rewrite IH by exact Hn. reflexivity.
Qed.

Lemma chainEntries_keys parentName steps :
  map fst (chainEntries parentName steps) = map fst steps.
Proof.
  revert parentName. induction steps as [|[t p] steps IH]; intros; simpl; [reflexivity|].
  rewrite IH. reflexivity.
Qed.

Lemma chainEntries_app parentName (s1 s2 : list (string * string)) :
  chainEntries parentName (s1 ++ s2)%list
  = (chainEntries parentName s1 ++ chainEntries (lastName parentName s1) s2)%list.
Proof.
  revert parentName. induction s1 as [|[t p] s1 IH]; intros; simpl; [reflexivity|].
  rewrite IH. reflexivity.
Qed.

Lemma lastName_app parentName (s1 s2 : list (string * string)) :
  lastName parentName (s1 ++ s2)%list = lastName (lastName parentName s1) s2.
Proof.
  revert parentName. induction s1 as [|[t p] s1 IH]; intros; simpl; [reflexivity|].
  apply IH.
Qed.

Lemma analyze_chainConditions toSource root parentName steps (m : VarMap) :
  root <> "" ->
  NoDup (map fst m ++ map fst steps)%list ->
  fold_left (analyzeCondition toSource) (chainConditions parentName steps) (Some root, m)
  = (Some root, (m ++ chainEntries parentName steps)%list).
Proof.
  intros Hroot. revert parentName m.
  induction steps as [|[t p] steps IH]; intros parentName m Hnd.
  - simpl. rewrite app_nil_r. reflexivity.
  - cbn [chainConditions fold_left].
    assert (Ht : truthy (Some root) = true).
    { simpl. destruct (String.eqb_spec root ""); [congruence|reflexivity]. }
    assert (H1 : analyzeCondition toSource (Some root, m)
                   (BinaryExpression "===" NullLiteral
                      (assign t (dot (Identifier parentName) p)))
                 = (Some root, (m ++ [(t, mkVar t (Some parentName)
                                         (dot (Identifier parentName) p)
                                         [mkProperty p false])])%list)).
    { cbn. cbn in Ht. rewrite Ht. cbn. rewrite mapSet_fresh; [reflexivity|].
      simpl in Hnd. apply NoDup_app in Hnd as (_ & Hd & _).
      intros Hin. apply (Hd _ Hin). left. }
    rewrite H1.
    assert (H2 : forall m', analyzeCondition toSource (Some root, m')
                   (BinaryExpression "===" void0 (Identifier t)) = (Some root, m')).
    { intros m'. cbn. cbn in Ht. rewrite Ht. reflexivity. }
    rewrite H2, IH.
    + rewrite <- app_assoc. reflexivity.
    + rewrite map_app. simpl. rewrite <- app_assoc. exact Hnd.
Qed.

Lemma mapGet_chainEntry (m0 : VarMap) parentName pre t p post :
  NoDup (map fst m0 ++ map fst (pre ++ (t, p) :: post))%list ->
  mapGet (m0 ++ chainEntries parentName (pre ++ (t, p) :: post))%list t
  = Some (mkVar t (Some (lastName parentName pre))
            (dot (Identifier (lastName parentName pre)) p) [mkProperty p false]).
Proof.
  intros Hnd. rewrite chainEntries_app, app_assoc.
  rewrite mapGet_app_notin.
  - simpl. rewrite String.eqb_refl. reflexivity.
  - rewrite map_app, chainEntries_keys.
    rewrite map_app, app_assoc in Hnd.
    apply NoDup_app in Hnd as (_ & Hd & _).
    intros Hin. apply (Hd _ Hin). simpl. left.
Qed.

Lemma traceBack_steps (m0 : VarMap) parentName pre :
  forall post chain fuel,
    Forall (fun tp => fst tp <> "") pre ->
    NoDup (map fst m0 ++ map fst (pre ++ post))%list ->
    traceBack (length pre + fuel) (m0 ++ chainEntries parentName (pre ++ post))%list
      (lastName parentName pre) chain
    = traceBack fuel (m0 ++ chainEntries parentName (pre ++ post))%list
        parentName (stepProperties pre ++ chain)%list.
Proof.
  induction pre as [|[t p] pre IH] using rev_ind; intros post chain fuel Hne Hnd.
  - reflexivity.
  - apply Forall_app in Hne as [Hne Ht]. rewrite Forall_singleton in Ht. simpl in Ht.
    rewrite lastName_app. simpl lastName.
    rewrite length_app. simpl length.
    replace (length pre + 1 + fuel)%nat with (S (length pre + fuel)) by lia.
    rewrite <- app_assoc. simpl app.
    cbn [traceBack].
    destruct (String.eqb_spec t ""); [congruence|]. cbn [negb].
    rewrite mapGet_chainEntry by (rewrite <- app_assoc in Hnd; exact Hnd).
    cbn [parent properties default unshiftAll fold_left].
    rewrite IH.
    + unfold stepProperties. rewrite map_app, <- app_assoc. reflexivity.
    + exact Hne.
    + rewrite <- app_assoc in Hnd. exact Hnd.
Qed.

Lemma traceBack_chainMap root steps fuel chain :
  root <> "" ->
  Forall (fun tp => fst tp <> "") steps ->
  NoDup (root :: map fst steps) ->
  traceBack (length steps + S (S fuel)) (chainMap root steps) (lastName root steps) chain
  = Some (stepProperties steps ++ chain)%list.
Proof.
  intros Hroot Hne Hnd. unfold chainMap.
  pose proof (traceBack_steps [(root, rootEntry root (Identifier root))] root steps
                [] chain (S (S fuel))) as H.
  rewrite app_nil_r in H. simpl app in H. rewrite H by assumption.
  cbn [traceBack]. destruct (String.eqb_spec root ""); [congruence|]. cbn [negb].
  cbn [mapGet]. rewrite String.eqb_refl.
  cbn. reflexivity.
Qed.

Lemma mapHas_lastName root steps :
  NoDup (root :: map fst steps) ->
  mapHas (chainMap root steps) (lastName root steps) = true.
Proof.
  intros Hnd. unfold mapHas, chainMap.
  destruct steps as [|[t p] steps _] using rev_ind.
  - simpl. rewrite String.eqb_refl. reflexivity.
  - rewrite lastName_app. simpl lastName.
    change ((root, rootEntry root (Identifier root)) :: chainEntries root (steps ++ [(t, p)]))
      with ([(root, rootEntry root (Identifier root))]
              ++ chainEntries root (steps ++ [(t, p)]))%list.
    rewrite mapGet_chainEntry; [reflexivity|exact Hnd].
Qed.

Lemma buildChainExpression_valid root (names : list string) :
  forallb isValidIdentifier names = true ->
  buildChainExpression root (map (fun n => mkProperty n false) names)
  = optionalChain root names.
Proof.
  unfold buildChainExpression, optionalChain.
  generalize (Identifier root).
  induction names as [|n names IH]; intros e Hv; [reflexivity|].
  simpl in Hv. apply andb_true_iff in Hv as [Hn Hv].
  simpl. unfold propertyNode at 2. simpl. rewrite Hn. simpl.
  apply IH, Hv.
Qed.

Lemma wellFormedChain_spec root steps finalProp :
  wellFormedChain root steps finalProp = true ->
  root <> "" /\ Forall (fun tp => fst tp <> "") steps
  /\ NoDup (root :: map fst steps)
  /\ forallb isValidIdentifier (map snd steps ++ [finalProp])%list = true.
Proof.
  unfold wellFormedChain. intros H.
  apply andb_true_iff in H as [H Hv]. apply andb_true_iff in H as [Hne Hnd].
  apply bool_decide_eq_true in Hnd.
  simpl in Hne. apply andb_true_iff in Hne as [Hr Hne].
  split; [|split; [|split]]; try assumption.
  - intros ->. discriminate.
  - apply Forall_forall. intros [t p] Hin. simpl.
    rewrite forallb_forall in Hne.
    intros ->. assert (X : negb (String.eqb "" "") = true); [|discriminate X].
    apply Hne, in_map_iff. exists ("", p). split; [reflexivity|].
    apply list_elem_of_In. exact Hin.
Qed.

Lemma analyze_guardConditions toSource root steps :
  root <> "" ->
  NoDup (root :: map fst steps) ->
  analyzeConditions toSource (guardConditions root steps)
  = (Some root, chainMap root steps).
Proof.
  intros Hroot Hnd. unfold analyzeConditions, guardConditions, chainMap.
  cbn [fold_left].
  change (analyzeCondition toSource (None, [])
            (BinaryExpression "==" NullLiteral (Identifier root)))
    with (Some root, [(root, rootEntry root (Identifier root))]).
  rewrite analyze_chainConditions; [reflexivity|exact Hroot|exact Hnd].
Qed.

Lemma desugaredCoalescing_result (toSource : expr -> string) (fuel : nat)
    (root : string) (steps : list (string * string)) (tmp finalProp : string)
    (cond fallback : expr) (cleanUp : bool)
    (Hcond : extractLogicalOrConditions cond = guardConditions root steps)
    (Hwf : wellFormedChain root steps finalProp = true)
    (Hfuel : length steps + 2 <= fuel) :
  analyzeOptionalChain toSource fuel
    (desugaredCoalescing tmp cond (lastName root steps) finalProp fallback) cleanUp
  = Some (Some (LogicalExpression "??"
                  (optionalChain root (map snd steps ++ [finalProp])%list) fallback),
          if cleanUp then root :: map fst steps else []).
Proof.
  apply wellFormedChain_spec in Hwf as (Hroot & Hne & Hnd & Hv).
  unfold desugaredCoalescing, coalescingNode, analyzeOptionalChain.
  cbn [String.eqb Ascii.eqb Bool.eqb negb orb isNull isNullLiteral isUndefined void0
       isMemberExpression dot].
  rewrite String.eqb_refl. cbn [negb].
  rewrite Hcond, analyze_guardConditions by assumption.
  destruct (String.eqb_spec root ""); [congruence|].
  unfold buildOptionalChain.
  unfold dot. cbv beta iota.
  rewrite mapHas_lastName by exact Hnd.
  replace fuel with (length steps + S (S (fuel - length steps - 2)))%nat by lia.
  cbn [propertyNameOf].
  rewrite traceBack_chainMap by assumption.
  replace (stepProperties steps ++ [mkProperty finalProp false])%list
    with (map (fun n => mkProperty n false) (map snd steps ++ [finalProp])%list).
  2:{ rewrite map_app, map_map. reflexivity. }
  rewrite <- (buildChainExpression_valid root _ Hv).
  destruct (map _ (map snd steps ++ [finalProp])%list) eqn:E.
  { apply (f_equal length) in E. rewrite length_map, length_app in E.
    simpl in E. lia. }
  unfold cleanupTemporaryVariables, chainMap. cbn [map fst].
  rewrite chainEntries_keys. reflexivity.
Qed.

(** A deviation at one of the points [analyzeOptionalChain] checks gives no
    match. *)
Lemma analyzeOptionalChain_deviation toSource fuel op cmp cl tmp ntest ncons nalt
    rhs consName fallback cleanUp :
  String.eqb op "&&" = false
  \/ (String.eqb cmp "!==" || String.eqb cmp "!=") = false
  \/ isNull cl = false
  \/ String.eqb tmp consName = false
  \/ isUndefined ncons = false
  \/ isMemberExpression nalt = false ->
  analyzeOptionalChain toSource fuel
    (coalescingNode op cmp cl tmp ntest ncons nalt rhs consName fallback) cleanUp
  = Some (None, []).
Proof.
  unfold coalescingNode, analyzeOptionalChain.
  destruct (String.eqb op "&&"); [|reflexivity].
  destruct (String.eqb cmp "!==" || String.eqb cmp "!="); [|reflexivity].
  destruct (isNull cl); [|reflexivity].
  destruct (String.eqb tmp consName); [|reflexivity].
  destruct (isUndefined ncons); [|reflexivity].
  destruct (isMemberExpression nalt); [|reflexivity].
  intros [H|[H|[H|[H|[H|H]]]]]; discriminate H.
Qed.



(** X9: [extractLogicalOrConditions] flattens an [||] chain however it is
    nested: the conditions of [l || r] are those of [l] followed by those of
    [r], the list is never empty and none of its elements is an [||]
    expression; an expression that is not an [||] is its own only
    condition. *)
Theorem extractLogicalOrConditions_flat (e : expr) :
  Forall (fun c => isOrExpression c = false) (extractLogicalOrConditions e)
  /\ extractLogicalOrConditions e <> []
  /\ (forall l r, extractLogicalOrConditions (LogicalExpression "||" l r)
                  = (extractLogicalOrConditions l ++ extractLogicalOrConditions r)%list)
  /\ (isOrExpression e = false -> extractLogicalOrConditions e = [e]).
Proof.
  split; [|split; [|split]].
  - induction e; simpl; try (repeat constructor).
    destruct (String.eqb operator "||") eqn:E.
    + apply Forall_app. split; assumption.
    + constructor; [simpl; exact E|constructor].
  - induction e; simpl; try discriminate.
    destruct (String.eqb operator "||"); [|discriminate].
    destruct (extractLogicalOrConditions e1); [contradiction|discriminate].
  - reflexivity.
  - destruct e; simpl; try reflexivity. intros ->. reflexivity.
Qed.

Lemma traceBack_cycle name (v : VarAssignment) (m : VarMap) fuel :
  name <> "" -> mapGet m name = Some v -> parent v = Some name ->
  forall chain, traceBack fuel m name chain = None.
Proof.
  intros Hn Hg Hp. induction fuel as [|fuel IH]; intros chain; simpl.
  - reflexivity.
  - destruct (String.eqb_spec name "") as [E|_]; [contradiction|]. simpl.
    rewrite Hg, Hp. simpl. apply IH.
Qed.

(** X10: on a guard that assigns a variable from a property of itself,
    [null === (n = n.a)], [analyzeConditions] first records [n] as the root
    and then overwrites that entry with one whose parent is [n]; the
    trace-back loop of [buildOptionalChain] then never leaves [n], and
    [analyzeOptionalChain] does not return, whatever the number of
    iterations allowed. *)
Theorem self_assignment_never_returns (toSource : expr -> string) (fuel : nat)
    (n t a b : string) (fallback : expr) (cleanUpVariables : bool)
    (Hname : n <> "") :
  analyzeConditions toSource
    [BinaryExpression "===" NullLiteral (assign n (dot (Identifier n) a))]
  = (Some n, [(n, mkVar n (Some n) (dot (Identifier n) a) [mkProperty a false])])
  /\ analyzeOptionalChain toSource fuel (selfAssignedChain n t a b fallback)
       cleanUpVariables = None.
Proof.
  assert (Ha : analyzeConditions toSource
    [BinaryExpression "===" NullLiteral (assign n (dot (Identifier n) a))]
  = (Some n, [(n, mkVar n (Some n) (dot (Identifier n) a) [mkProperty a false])])).
  { unfold analyzeConditions. simpl. rewrite String.eqb_refl. reflexivity. }
  split; [exact Ha|].
  unfold analyzeOptionalChain, selfAssignedChain, assign, dot, void0.
  cbn [negb String.eqb orb isNull isUndefined isMemberExpression
       extractLogicalOrConditions].
  rewrite String.eqb_refl.
  cbn [negb String.eqb orb isNull isUndefined isMemberExpression
       extractLogicalOrConditions].
  unfold assign, dot in Ha. rewrite Ha.
  destruct (String.eqb_spec n "") as [E|_]; [contradiction|].
  unfold buildOptionalChain, mapHas. cbn [mapGet]. rewrite String.eqb_refl.
  rewrite (traceBack_cycle n
             (mkVar n (Some n) (MemberExpression (Identifier n) (Identifier a) false)
                [mkProperty a false]));
    [reflexivity|exact Hname|cbn [mapGet]; rewrite String.eqb_refl; reflexivity
    |reflexivity].
Qed.

Lemma self_assignment_never_returns_witness :
  analyzeOptionalChain (fun _ => "") 1000
    (selfAssignedChain "n" "t" "a" "b" (StringLiteral "x")) true = None.
Proof.
  apply (self_assignment_never_returns (fun _ => "") 1000 "n" "t" "a" "b"
           (StringLiteral "x") true).
  discriminate.
Defined.

(** ** The driver *)

Section DriverProperties.

Context {Doc Path : Type} `{EqDecision Path}.
Variable findConditional : Doc -> list Path.
Variable findLogical : Doc -> list Path.
Variable nodeOf : Doc -> Path -> expr.
Variable replace : Doc -> Path -> expr -> Doc.
Variable afterAttempt : Doc -> Path -> expr -> list string -> Doc.
Variable sp : expr -> expr.

Local Abbreviation visitPath' := (visitPath nodeOf replace afterAttempt sp).
Local Abbreviation forEachPath' := (forEachPath nodeOf replace afterAttempt sp).
Local Abbreviation pass' :=
  (pass findConditional findLogical nodeOf replace afterAttempt sp).
Local Abbreviation runPasses' :=
  (runPasses findConditional findLogical nodeOf replace afterAttempt sp).
Local Abbreviation whilePasses' :=
  (whilePasses findConditional findLogical nodeOf replace afterAttempt sp).

Lemma whilePasses_runPasses n : forall fuel st,
  n < fuel ->
  whilePasses' fuel (Z.of_nat n) st = Some (runPasses' n st).
Proof.
  induction n as [|n IH]; intros fuel st Hlt.
  - destruct fuel; [lia|]. reflexivity.
  - destruct fuel; [lia|]. cbn [whilePasses runPasses].
    destruct (Z.eqb_spec (Z.of_nat (S n)) 0) as [E|_]; [lia|].
    destruct (pass' st) as [st'|]; [|reflexivity].
    replace (Z.of_nat (S n) - 1)%Z with (Z.of_nat n) by lia.
    apply IH. lia.
Qed.

(** [if (visited.has(path)) return]: a visited path is not attempted, and
    nothing changes. *)
Lemma visitPath_skips st path :
  path ∈ visited st -> visitPath' st path = Some st.
Proof. intros Hin. unfold visitPath. rewrite bool_decide_true; done. Qed.

(** [visited.add(path)]: a path that is attempted is recorded, whatever the
    attempt returns. *)
Lemma visitPath_records st st' path :
  path ∉ visited st -> visitPath' st path = Some st' ->
  visited st' = path :: visited st
  /\ exists result,
       convertOptionalChaining sp (nodeOf (document st) path) (engine st)
       = Some (result, engine st').
Proof.
  intros Hin. unfold visitPath. rewrite bool_decide_false by done.
  destruct (convertOptionalChaining _ _ _) as [[result es]|]; [|discriminate].
  intros [= <-]. simpl. eauto.
Qed.

Lemma visitPath_visited st st' path :
  visitPath' st path = Some st' ->
  forall p, p ∈ visited st' <-> p ∈ visited st \/ p = path.
Proof.
  intros Hv p. destruct (decide (path ∈ visited st)) as [Hin|Hin].
  - rewrite visitPath_skips in Hv by exact Hin. injection Hv as <-.
    split; [auto|]. intros [?| ->]; assumption.
  - destruct (visitPath_records _ _ _ Hin Hv) as [-> _].
    rewrite elem_of_cons. tauto.
Qed.

Lemma visitPath_NoDup st st' path :
  NoDup (visited st) -> visitPath' st path = Some st' -> NoDup (visited st').
Proof.
  intros Hnd Hv. destruct (decide (path ∈ visited st)) as [Hin|Hin].
  - rewrite visitPath_skips in Hv by exact Hin. injection Hv as <-. exact Hnd.
  - destruct (visitPath_records _ _ _ Hin Hv) as [-> _].
    apply NoDup_cons. split; assumption.
Qed.

Lemma forEachPath_visited paths : forall st st',
  forEachPath' paths st = Some st' ->
  forall p, p ∈ visited st' <-> p ∈ visited st \/ p ∈ paths.
Proof.
  induction paths as [|path paths IH]; intros st st'; simpl.
  - intros [= <-] p. rewrite elem_of_nil. tauto.
  - destruct (visitPath' st path) as [st1|] eqn:E; [|discriminate].
    intros Hf p. rewrite (IH _ _ Hf), (visitPath_visited _ _ _ E), elem_of_cons.
    tauto.
Qed.

Lemma forEachPath_NoDup paths : forall st st',
  NoDup (visited st) -> forEachPath' paths st = Some st' -> NoDup (visited st').
Proof.
  induction paths as [|path paths IH]; intros st st' Hnd; simpl.
  - intros [= <-]. exact Hnd.
  - destruct (visitPath' st path) as [st1|] eqn:E; [|discriminate].
    apply IH. eapply visitPath_NoDup; eassumption.
Qed.

(** The body of the loop is the sweep over the conditional expressions
    followed by the sweep over the [&&] and [||] expressions of the document
    the first sweep has left; both record every path they are given. *)
Lemma pass_sweeps st st' :
  pass' st = Some st' ->
  exists st1,
    forEachPath' (findConditional (document st)) st = Some st1
    /\ forEachPath' (findLogical (document st1)) st1 = Some st'
    /\ forall p, p ∈ visited st' <->
                 p ∈ visited st \/ p ∈ findConditional (document st)
                 \/ p ∈ findLogical (document st1).
Proof.
  unfold pass.
  destruct (forEachPath' (findConditional (document st)) st) as [st1|] eqn:E1;
    [|discriminate].
  intros E2. exists st1. split; [reflexivity|]. split; [exact E2|].
  intros p. rewrite (forEachPath_visited _ _ _ E2), (forEachPath_visited _ _ _ E1).
  tauto.
Qed.

Lemma pass_NoDup st st' :
  NoDup (visited st) -> pass' st = Some st' -> NoDup (visited st').
Proof.
  intros Hnd Hp. destruct (pass_sweeps _ _ Hp) as (st1 & E1 & E2 & _).
  eapply forEachPath_NoDup; [|exact E2].
  eapply forEachPath_NoDup; eassumption.
Qed.

Lemma runPasses_NoDup n : forall st st',
  NoDup (visited st) -> runPasses' n st = Finished st' -> NoDup (visited st').
Proof.
  induction n as [|n IH]; intros st st' Hnd; simpl.
  - intros [= <-]. exact Hnd.
  - destruct (pass' st) as [st1|] eqn:E; [|discriminate].
    apply IH. eapply pass_NoDup; eassumption.
Qed.

Lemma runPasses_first n st st' :
  runPasses' (S n) st = Finished st' ->
  exists st1, pass' st = Some st1 /\ runPasses' n st1 = Finished st'.
Proof. simpl. destruct (pass' st) as [st1|]; [eauto|discriminate]. Qed.

Lemma runPasses_visited n : forall st st',
  runPasses' n st = Finished st' ->
  forall p, p ∈ visited st -> p ∈ visited st'.
Proof.
  induction n as [|n IH]; intros st st'; simpl.
  - intros [= <-] p Hp. exact Hp.
  - destruct (pass' st) as [st1|] eqn:E; [|discriminate].
    intros Hr p Hp. apply (IH _ _ Hr).
    destruct (pass_sweeps _ _ E) as (? & _ & _ & Hv). apply Hv. auto.
Qed.

Lemma forEachPath_quiet paths : forall st,
  (forall path, path ∈ paths ->
     quietAttempt sp (nodeOf (document st) path)
     /\ afterAttempt (document st) path (nodeOf (document st) path) []
        = document st) ->
  exists st',
    forEachPath' paths st = Some st'
    /\ document st' = document st
    /\ cleaned (engine st') = cleaned (engine st).
Proof.
  induction paths as [|path paths IH]; intros st Hq; simpl.
  - eauto.
  - assert (Hv : exists st1, visitPath' st path = Some st1
                             /\ document st1 = document st
                             /\ cleaned (engine st1) = cleaned (engine st)).
    { unfold visitPath. case_bool_decide; [eauto|].
      destruct (Hq path) as [[Hplace Hret] Hhost]; [left|].
      destruct (Hret (engine st)) as [flag He].
      rewrite He, Hplace. simpl. rewrite drop_all, Hhost. eauto. }
    destruct Hv as (st1 & -> & Hd & Hc).
    destruct (IH st1) as (st' & Hf & Hd' & Hc').
    { intros p Hin. rewrite Hd. apply Hq. right. exact Hin. }
    exists st'. split; [exact Hf|]. split; congruence.
Qed.

Lemma pass_quiet st :
  quietDocument findConditional findLogical nodeOf afterAttempt sp (document st) ->
  exists st',
    pass' st = Some st'
    /\ document st' = document st
    /\ cleaned (engine st') = cleaned (engine st).
Proof.
  intros Hq. unfold pass.
  destruct (forEachPath_quiet (findConditional (document st)) st)
    as (st1 & -> & Hd & Hc).
  { intros path Hin. apply Hq. apply elem_of_app. left. exact Hin. }
  destruct (forEachPath_quiet (findLogical (document st1)) st1)
    as (st2 & -> & Hd2 & Hc2).
  { intros path Hin. rewrite Hd in *. apply Hq. apply elem_of_app. right.
    exact Hin. }
  exists st2. split; [reflexivity|]. split; congruence.
Qed.

Lemma runPasses_quiet n : forall st,
  quietDocument findConditional findLogical nodeOf afterAttempt sp (document st) ->
  exists st',
    runPasses' n st = Finished st'
    /\ document st' = document st
    /\ cleaned (engine st') = cleaned (engine st).
Proof.
  induction n as [|n IH]; intros st Hq; simpl.
  - eauto.
  - destruct (pass_quiet st Hq) as (st1 & -> & Hd & Hc).
    destruct (IH st1) as (st' & Hr & Hd' & Hc'); [rewrite Hd; exact Hq|].
    exists st'. split; [exact Hr|]. split; congruence.
Qed.

End DriverProperties.

(** *** The one-expression document *)

Lemma setChild_childAt e i c : childAt e i = Some c -> setChild e i c = e.
Proof.
  destruct e; simpl; try discriminate.
  all: try (destruct i as [|[|[|i]]]; simpl; intros [= <-]; reflexivity).
  - destruct i as [|j]; simpl; [intros [= <-]; reflexivity|].
    intros Hl. rewrite list_insert_id by exact Hl. reflexivity.
  - destruct i as [|j]; simpl; [intros [= <-]; reflexivity|].
    intros Hl. rewrite list_insert_id by exact Hl. reflexivity.
  - intros Hl. rewrite list_insert_id by exact Hl. reflexivity.
  - intros Hl. destruct (elements !! i) as [[x|]|] eqn:E; simpl in Hl;
      try discriminate.
    injection Hl as ->. rewrite list_insert_id by exact E. reflexivity.
  - intros Hl. rewrite list_insert_id by exact Hl. reflexivity.
Qed.

(** Writing at a position the node that stands there, or writing at a
    position that leads nowhere, leaves the expression as it is. *)
Lemma replaceAt_nodeAt q : forall e x,
  replaceAt e q (default x (nodeAt e q)) = e.
Proof.
  induction q as [|i q IH]; intros e x; simpl.
  - reflexivity.
  - destruct (childAt e i) as [c|] eqn:E; [|reflexivity].
    rewrite (IH c x). apply setChild_childAt. exact E.
Qed.

Lemma treeAfterAttempt_same d path names :
  treeAfterAttempt d path (treeNodeOf d path) names = d.
Proof.
  unfold treeAfterAttempt, treeNodeOf. destruct (isLive d path); [|reflexivity].
  rewrite replaceAt_nodeAt. destruct d. reflexivity.
Qed.

(** *** The node an attempt writes into *)

Lemma splitCondition_deepest_false c : forall tb fb,
  condition (getDeepestFalseBranch (splitCondition c tb fb))
  = match fb with
    | Some t => condition (getDeepestFalseBranch t)
    | None => falseAtom c
    end.
Proof.
  induction c; intros tb fb; simpl; try (destruct fb; reflexivity).
  destruct (String.eqb operator "&&"); [apply IHc1|].
  destruct (String.eqb operator "||"); [rewrite IHc1; apply IHc2|].
  destruct fb; reflexivity.
Qed.

Lemma splitCondition_deepest_true c : forall tb fb,
  condition (getDeepestTrueBranch (splitCondition c tb fb))
  = match tb with
    | Some t => condition (getDeepestTrueBranch t)
    | None => trueAtom c
    end.
Proof.
  induction c; intros tb fb; simpl; try (destruct tb; reflexivity).
  destruct (String.eqb operator "&&"); [rewrite IHc1; apply IHc2|].
  destruct (String.eqb operator "||"); [apply IHc1|].
  destruct tb; reflexivity.
Qed.

Lemma deepest_false_leaf e :
  condition (getDeepestFalseBranch
               (makeDecisionTreeWithConditionSplitting (makeDecisionTree e)))
  = falseLeaf e.
Proof.
  induction e; try reflexivity.
  - simpl. destruct (String.eqb operator "&&") eqn:E1; simpl.
    { rewrite splitCondition_deepest_false. reflexivity. }
    destruct (String.eqb operator "||") eqn:E2; simpl.
    { rewrite splitCondition_deepest_false. exact IHe2. }
    rewrite E1, E2. reflexivity.
  - simpl. rewrite splitCondition_deepest_false. exact IHe3.
Qed.

Lemma getDeepestFalseBranch_negate tree :
  getDeepestFalseBranch (negateDecisionTree tree)
  = negateDecisionTree (getDeepestTrueBranch tree).
Proof.
  revert tree. fix IH 1. intros [c [tb|] fb]; simpl.
  - apply IH.
  - reflexivity.
Qed.

Lemma condition_negate tree :
  condition (negateDecisionTree tree) = negateCondition (condition tree).
Proof. destruct tree. reflexivity. Qed.

Lemma deepest_true_leaf e :
  condition (getDeepestTrueBranch
               (makeDecisionTreeWithConditionSplitting (makeDecisionTree e)))
  = trueLeaf e.
Proof.
  induction e; try reflexivity.
  - simpl. destruct (String.eqb operator "&&") eqn:E1; simpl.
    { rewrite splitCondition_deepest_true. exact IHe2. }
    destruct (String.eqb operator "||") eqn:E2; simpl.
    { rewrite splitCondition_deepest_true. reflexivity. }
    rewrite E1, E2. reflexivity.
  - simpl. rewrite splitCondition_deepest_true. exact IHe2.
Qed.

Lemma updateFalseAtom_falseAtom f c :
  updateFalseAtom f c = updateFalseAtom (fun _ => f (falseAtom c)) c.
Proof.
  induction c; try reflexivity. simpl.
  destruct (String.eqb operator "&&"); [congruence|].
  destruct (String.eqb operator "||"); [congruence|]. reflexivity.
Qed.

Lemma updateFalseLeaf_falseLeaf f e :
  updateFalseLeaf f e = updateFalseLeaf (fun _ => f (falseLeaf e)) e.
Proof.
  induction e; try reflexivity; simpl.
  - destruct (String.eqb operator "&&");
      [rewrite updateFalseAtom_falseAtom; reflexivity|].
    destruct (String.eqb operator "||"); [congruence|]. reflexivity.
  - congruence.
Qed.

Lemma updateTrueAtom_trueAtom f c :
  updateTrueAtom f c = updateTrueAtom (fun _ => f (trueAtom c)) c.
Proof.
  induction c; try reflexivity. simpl.
  destruct (String.eqb operator "&&"); [congruence|].
  destruct (String.eqb operator "||"); [congruence|]. reflexivity.
Qed.

Lemma updateTrueLeaf_trueLeaf f e :
  updateTrueLeaf f e = updateTrueLeaf (fun _ => f (trueLeaf e)) e.
Proof.
  induction e; try reflexivity; simpl.
  - destruct (String.eqb operator "&&"); [congruence|].
    destruct (String.eqb operator "||");
      [rewrite updateTrueAtom_trueAtom; reflexivity|]. reflexivity.
  - congruence.
Qed.

(** The condition of the deepest false branch of the tree the constructor is
    given, the node every call of the rewriter starts from, is the
    sub-expression [convertInPlace] rewrites: [falseLeaf], or with a not-null
    test the negation of [trueLeaf]. *)
Lemma attemptTree_leaf e :
  condition (getDeepestFalseBranch (attemptTree e))
  = if isNotNullBinary
         (condition (makeDecisionTreeWithConditionSplitting (makeDecisionTree e)))
    then negateCondition (trueLeaf e)
    else falseLeaf e.
Proof.
  unfold attemptTree. destruct (isNotNullBinary _).
  - rewrite getDeepestFalseBranch_negate, condition_negate, deepest_true_leaf.
    reflexivity.
  - apply deepest_false_leaf.
Qed.

(** [return node]: a member expression whose object is not the token is
    returned as the rewriter has left it. *)
Lemma returned_member_is_left sp tmp target o p c r b :
  areNodesEqual o tmp = false ->
  (applyOptionalChaining sp tmp target (MemberExpression o p c) = Some (r, b) ->
   leftInPlace sp tmp target (MemberExpression o p c) = r)
  /\ (applyOptionalChaining sp tmp target (OptionalMemberExpression o p c)
      = Some (r, b) ->
      leftInPlace sp tmp target (OptionalMemberExpression o p c) = r).
Proof.
  intros Ho. split.
  - change (applyOptionalChaining sp tmp target (MemberExpression o p c))
      with (if areNodesEqual o tmp then
              Some (OptionalMemberExpression
                      (match target with Some t => sp t | None => o end) p c, true)
            else match applyOptionalChaining sp tmp target o with
                 | None => None
                 | Some (o', b) => Some (MemberExpression o' p c, b)
                 end).
    change (leftInPlace sp tmp target (MemberExpression o p c))
      with (if areNodesEqual o tmp then MemberExpression o p c
            else match applyOptionalChaining sp tmp target o with
                 | Some (o', _) => MemberExpression o' p c
                 | None => MemberExpression o p c
                 end).
    rewrite Ho.
    destruct (applyOptionalChaining sp tmp target o) as [[o' b']|]; [|discriminate].
    intros [= <- <-]. reflexivity.
  - change (applyOptionalChaining sp tmp target (OptionalMemberExpression o p c))
      with (if areNodesEqual o tmp then
              Some (OptionalMemberExpression
                      (match target with Some t => sp t | None => o end) p c, true)
            else match applyOptionalChaining sp tmp target o with
                 | None => None
                 | Some (o', b) => Some (OptionalMemberExpression o' p c, b)
                 end).
    change (leftInPlace sp tmp target (OptionalMemberExpression o p c))
      with (if areNodesEqual o tmp then OptionalMemberExpression o p c
            else match applyOptionalChaining sp tmp target o with
                 | Some (o', _) => OptionalMemberExpression o' p c
                 | None => OptionalMemberExpression o p c
                 end).
    rewrite Ho.
    destruct (applyOptionalChaining sp tmp target o) as [[o' b']|]; [|discriminate].
    intros [= <- <-]. reflexivity.
Qed.

(** *** Candidates turned down by the opening check *)

Lemma unnegateInPlace_negateCondition x :
  unnegateInPlace x (negateCondition x) = x.
Proof.
  destruct x; try reflexivity; simpl.
  - destruct (String.eqb operator "!"); reflexivity.
  - destruct (negateOperator operator); reflexivity.
  - destruct (String.eqb operator "&&"); [reflexivity|].
    destruct (String.eqb operator "||"); reflexivity.
Qed.

Lemma updateFalseAtom_id f c : (forall x, f x = x) -> updateFalseAtom f c = c.
Proof.
  intros Hf. induction c; simpl; try apply Hf.
  destruct (String.eqb operator "&&"); [congruence|].
  destruct (String.eqb operator "||"); [congruence|]. apply Hf.
Qed.

Lemma updateFalseLeaf_id f e : (forall x, f x = x) -> updateFalseLeaf f e = e.
Proof.
  intros Hf. induction e; simpl; try apply Hf.
  - destruct (String.eqb operator "&&");
      [rewrite updateFalseAtom_id by exact Hf; reflexivity|].
    destruct (String.eqb operator "||"); [congruence|]. apply Hf.
  - congruence.
Qed.

Lemma updateTrueAtom_id f c : (forall x, f x = x) -> updateTrueAtom f c = c.
Proof.
  intros Hf. induction c; simpl; try apply Hf.
  destruct (String.eqb operator "&&"); [congruence|].
  destruct (String.eqb operator "||"); [congruence|]. apply Hf.
Qed.

Lemma updateTrueLeaf_id f e : (forall x, f x = x) -> updateTrueLeaf f e = e.
Proof.
  intros Hf. induction e; simpl; try apply Hf.
  - destruct (String.eqb operator "&&"); [congruence|].
    destruct (String.eqb operator "||");
      [rewrite updateTrueAtom_id by exact Hf; reflexivity|]. apply Hf.
  - congruence.
Qed.

Lemma constructInPlace_rejected sp tree flag live :
  acceptsTrueBranch tree = false -> constructInPlace sp tree flag live = live.
Proof. intros H. destruct tree. simpl. rewrite H. reflexivity. Qed.

Lemma constructOptionalChaining_rejected sp tree flag s :
  acceptsTrueBranch tree = false ->
  constructOptionalChaining sp tree flag s = Some (None, s).
Proof. intros H. destruct tree. simpl. rewrite H. reflexivity. Qed.

(** Lines 100-103 return before the rewriter or the Scope Cleaner is called:
    a candidate turned down there is left as it is. *)
Lemma rejected_attempt_quiet sp node :
  rejectedAtOpening node = true -> quietAttempt sp node.
Proof.
  unfold rejectedAtOpening, attemptTree. intros H.
  apply negb_true_iff in H. split.
  - unfold convertInPlace.
    destruct (isNotNullBinary _).
    + apply updateTrueLeaf_id. intros x.
      rewrite constructInPlace_rejected by exact H.
      apply unnegateInPlace_negateCondition.
    + apply updateFalseLeaf_id. intros x.
      apply constructInPlace_rejected. exact H.
  - intros es. exists false. unfold convertOptionalChaining, bind, setTransformed.
    rewrite constructOptionalChaining_rejected by exact H. reflexivity.
Qed.





